(** * Parametric Rosenbrock problem (DMIPL): problem definition and data pipeline

    Shallow embedding of [src/problem/neuromancer/rosenbrock.py] and of the
    experiment driver [submit_rb.py].

    The symbolic objects that neuroMANCER builds through operator overloading
    are embedded as an explicit expression tree; Python's dynamic dispatch
    ([sum] starting from the integer 0, comparison of an integer with 0,
    attribute access on an integer) is written out case by case, and
    exceptions are values of an error monad. *)

From Stdlib Require Import List ZArith QArith String Bool Lia Permutation.
From Stdlib Require Import Lqa.
Import ListNotations.
Close Scope Q_scope.
Open Scope string_scope.
Open Scope list_scope.

(** ** Python runtime: exceptions, insertion-ordered dicts, unpacking, range *)

Module Py.

Inductive exn : Set :=
| NameError | ValueError | AttributeError | IndexError | KeyError | SystemExit.

Inductive result (A : Type) : Type :=
| Ok (a : A)
| Raise (e : exn).
Arguments Ok {A} a.
Arguments Raise {A} e.

Definition bind {A B : Type} (c : result A) (k : A -> result B) : result B :=
  match c with
  | Ok a => k a
  | Raise e => Raise e
  end.

Definition raises {A : Type} (c : result A) : Prop := exists e, c = Raise e.

Definition returns {A : Type} (c : result A) : Prop := exists a, c = Ok a.

(** A dict keeps its keys in insertion order; storing under a key that is
    already present replaces the value and keeps the key's position. *)
Section Dict.
Context {K V : Type} (eqb : K -> K -> bool).

Definition dict : Type := list (K * V).

Fixpoint dict_set (d : dict) (k : K) (v : V) : dict :=
  match d with
  | [] => [(k, v)]
  | (k', v') :: d' =>
      if eqb k k' then (k, v) :: d' else (k', v') :: dict_set d' k v
  end.

Fixpoint dict_get (d : dict) (k : K) : option V :=
  match d with
  | [] => None
  | (k', v') :: d' => if eqb k k' then Some v' else dict_get d' k
  end.

(** [d[k]]: a missing key raises KeyError. *)
Definition getitem (d : dict) (k : K) : result V :=
  match dict_get d k with
  | Some v => Ok v
  | None => Raise KeyError
  end.

(** A dict display [{k1: v1, k2: v2, ...}] stores its items left to right. *)
Definition dict_display (items : list (K * V)) : dict :=
  fold_left (fun d kv => dict_set d (fst kv) (snd kv)) items [].

(** [for k in ks: d[k] = mk(k)] *)
Definition fill (mk : K -> V) (d0 : dict) (ks : list K) : dict :=
  fold_left (fun d k => dict_set d k (mk k)) ks d0.

Definition keys (d : dict) : list K := map fst d.
Definition values (d : dict) : list V := map snd d.
End Dict.

Arguments dict K V : clear implicits.

(** [x, = it]: exactly one item, otherwise ValueError. *)
Definition unpack1 {A : Type} (l : list A) : result A :=
  match l with
  | [x] => Ok x
  | _ => Raise ValueError
  end.

(** [p, a = it]: exactly two items, otherwise ValueError. *)
Definition unpack2 {A : Type} (l : list A) : result (A * A) :=
  match l with
  | [p; a] => Ok (p, a)
  | _ => Raise ValueError
  end.

(** [range(n)] on an integer: 0, 1, ..., n-1; empty when n <= 0. *)
Definition range (n : Z) : list Z := map Z.of_nat (seq 0 (Z.to_nat n)).

(** Sequence indexing [v[i]] with Python's negative indices. *)
Definition index {A : Type} (v : list A) (i : Z) : option A :=
  let n := Z.of_nat (List.length v) in
  if (0 <=? i)%Z then nth_error v (Z.to_nat i)
  else if (- n <=? i)%Z then nth_error v (Z.to_nat (n + i))
  else None.

(** The module namespace in which a free name is looked up at run time. *)
Definition globals : Type := string -> option Z.

Definition load_global (G : globals) (name : string) : result Z :=
  match G name with
  | Some v => Ok v
  | None => Raise NameError
  end.

End Py.

Import Py.

Declare Scope py_scope.
Delimit Scope py_scope with py.
Notation "x <- c ;; k" := (Py.bind c (fun x => k))
  (at level 61, c at next level, right associativity) : py_scope.
Notation "' pat <- c ;; k" := (Py.bind c (fun x => match x with pat => k end))
  (at level 61, pat pattern, c at next level, right associativity) : py_scope.
Open Scope py_scope.

(** ** neuroMANCER symbolic layer

    [nm.constraint.variable(key)] is a leaf; every overloaded operator
    builds a node holding its operands in source order.  A comparison of two
    expressions is a constraint with weight 1.0 and no name; multiplying a
    constraint by a number (from either side) stores that number as its
    weight. *)

Module Nm.

Inductive expr : Set :=
| Var (key : string)
| Const (z : Z)
| Slice (e : expr) (i : Z)          (* e[:, i] *)
| Add (a b : expr)
| Sub (a b : expr)
| Mul (a b : expr)
| Div (a b : expr)
| Pow (a b : expr).

Inductive comparator : Set := GT | LT.

Inductive pynum : Set :=
| PyI (z : Z)        (* int *)
| PyF (q : Q).       (* float literal *)

Record constraint : Set := Constraint {
  left : expr;
  right : expr;
  cmp : comparator;
  weight : pynum;
  name : option string
}.

Inductive sense : Set := Minimize.

Record objective : Set := Objective {
  obj_var : expr;
  obj_sense : sense;
  obj_weight : pynum;
  obj_name : option string
}.

Definition variable (key : string) : expr := Var key.

(** Value of a [sum(...)] over expressions: the start value is the int 0, so
    an empty sum stays an int and a non-empty one is [0 + t0 + t1 + ...]. *)
Inductive summed : Set :=
| SumInt (z : Z)
| SumVar (e : expr).

Definition sum_step (acc : summed) (t : expr) : summed :=
  match acc with
  | SumInt z => SumVar (Add (Const z) t)     (* int + Variable: __radd__ *)
  | SumVar e => SumVar (Add e t)
  end.

Definition py_sum (ts : list expr) : summed := fold_left sum_step ts (SumInt 0).

(** [f.minimize(weight=w, name=n)]: an int has no such attribute. *)
Definition minimize (f : summed) (w : pynum) (n : string) : result objective :=
  match f with
  | SumVar e => Ok (Objective e Minimize w (Some n))
  | SumInt _ => Raise AttributeError
  end.

(** Outcome of a comparison: a Python bool between ints, a constraint as
    soon as one side is an expression. *)
Inductive compared : Set :=
| CmpBool (b : bool)
| CmpCon (c : constraint).

(** [g >= 0] *)
Definition ge_int (g : summed) (r : Z) : compared :=
  match g with
  | SumInt z => CmpBool (r <=? z)%Z
  | SumVar e => CmpCon (Constraint e (Const r) GT (PyF 1) None)
  end.

(** [g >= r] with [r] an expression; for an int [g] Python falls back to the
    reflected [r <= g]. *)
Definition ge_expr (g : summed) (r : expr) : compared :=
  match g with
  | SumInt z => CmpCon (Constraint r (Const z) LT (PyF 1) None)
  | SumVar e => CmpCon (Constraint e r GT (PyF 1) None)
  end.

(** [g <= r] with [r] an expression; reflected to [r >= g] for an int [g]. *)
Definition le_expr (g : summed) (r : expr) : compared :=
  match g with
  | SumInt z => CmpCon (Constraint r (Const z) GT (PyF 1) None)
  | SumVar e => CmpCon (Constraint e r LT (PyF 1) None)
  end.

(** Outcome of [w * c]. *)
Inductive weighted : Set :=
| WInt (z : Z)
| WCon (c : constraint).

Definition rmul (w : Z) (c : compared) : weighted :=
  match c with
  | CmpBool b => WInt (w * (if b then 1 else 0))%Z
  | CmpCon k => WCon (Constraint (left k) (right k) (cmp k) (PyI w) (name k))
  end.

(** [con.name = n]: an int cannot take an attribute. *)
Definition set_name (c : weighted) (n : string) : result constraint :=
  match c with
  | WCon k => Ok (Constraint (left k) (right k) (cmp k) (weight k) (Some n))
  | WInt _ => Raise AttributeError
  end.

End Nm.

Import Nm.

(** ** Forward evaluation of an expression on one datapoint

    A batch is processed row by row: on one row a variable is bound to the
    row of its tensor, [e[:, i]] picks column [i] of it, and the arithmetic
    nodes act on numbers.  Numbers are exact rationals; an operation that has
    no exact rational result (non-integer exponent, zero divisor, arithmetic
    on a whole row) has no value here. *)

Module Eval.

Inductive value : Type :=
| Num (q : Q)
| Row (v : list Q).

Definition env : Type := string -> option (list Q).

Definition num2 (f : Q -> Q -> option Q) (a b : option value) : option value :=
  match a, b with
  | Some (Num x), Some (Num y) => option_map Num (f x y)
  | _, _ => None
  end.

Definition qdiv (x y : Q) : option Q :=
  if Qeq_bool y 0%Q then None else Some (x / y)%Q.

Definition qpow (x y : Q) : option Q :=
  if Pos.eqb (Qden y) 1 then Some (Qpower x (Qnum y)) else None.

Fixpoint eval (E : env) (e : expr) : option value :=
  match e with
  | Var k => option_map Row (E k)
  | Const z => Some (Num (inject_Z z))
  | Slice e' i =>
      match eval E e' with
      | Some (Row v) => option_map Num (Py.index v i)
      | _ => None
      end
  | Add a b => num2 (fun x y => Some (x + y)%Q) (eval E a) (eval E b)
  | Sub a b => num2 (fun x y => Some (x - y)%Q) (eval E a) (eval E b)
  | Mul a b => num2 (fun x y => Some (x * y)%Q) (eval E a) (eval E b)
  | Div a b => num2 qdiv (eval E a) (eval E b)
  | Pow a b => num2 qpow (eval E a) (eval E b)
  end.

Definition eval_num (E : env) (e : expr) : option Q :=
  match eval E e with
  | Some (Num q) => Some q
  | _ => None
  end.

(** A constraint is satisfied on a datapoint when its two sides compare as
    its comparator says. *)
Definition satisfied (E : env) (c : constraint) : option bool :=
  match eval_num E (left c), eval_num E (right c) with
  | Some l, Some r =>
      Some (match cmp c with
            | GT => Qle_bool r l
            | LT => Qle_bool l r
            end)
  | _, _ => None
  end.

End Eval.

(** ** src/problem/neuromancer/rosenbrock.py *)

Module Rosenbrock.

(** The two loops of [rosenbrock] that fill a dict with one variable per
    key. *)
Definition make_variables (ks : list string) : dict string expr :=
  fill String.eqb variable [] ks.

(** (1 - x_i)^2 + a_i (x_{i+1} - x_i^2)^2 *)
Definition obj_term (x a : expr) (i : Z) : expr :=
  Add (Pow (Sub (Const 1) (Slice x i)) (Const 2))
      (Mul (Slice a i)
           (Pow (Sub (Slice x (i + 1)) (Pow (Slice x i) (Const 2))) (Const 2))).

Definition get_obj (vars params : dict string expr) (num_vars : Z)
  : result objective :=
  x <- unpack1 (values vars) ;;
  '(p, a) <- unpack2 (values params) ;;
  let f := py_sum (map (obj_term x a) (range (num_vars - 1))) in
  minimize f (PyF 1) "obj".

(** (-1)^i * x_i *)
Definition alt_term (x : expr) (i : Z) : expr :=
  Mul (Const ((-1) ^ i)) (Slice x i).

(** x_i^2 *)
Definition sq_term (x : expr) (i : Z) : expr :=
  Pow (Slice x i) (Const 2).

(** [num_vars] is not a parameter of [get_constrs]: each of the three
    [range(num_vars)] reads it from the module namespace [G]. *)
Definition get_constrs (G : globals) (vars params : dict string expr)
    (penalty_weight : Z) : result (list constraint) :=
  x <- unpack1 (values vars) ;;
  '(p, a) <- unpack2 (values params) ;;
  let constraints := [] in
  (* constraints 0 *)
  n0 <- load_global G "num_vars" ;;
  let g := py_sum (map (alt_term x) (range n0)) in
  c0 <- set_name (rmul penalty_weight (ge_int g 0)) "c0" ;;
  let constraints := constraints ++ [c0] in
  (* constraints 1 *)
  n1 <- load_global G "num_vars" ;;
  let g := py_sum (map (sq_term x) (range n1)) in
  c1 <- set_name (rmul penalty_weight (ge_expr g (Div (Slice p 0) (Const 2)))) "c1" ;;
  let constraints := constraints ++ [c1] in
  (* constraints 2 *)
  n2 <- load_global G "num_vars" ;;
  let g := py_sum (map (sq_term x) (range n2)) in
  c2 <- set_name (rmul penalty_weight (le_expr g (Slice p 0))) "c2" ;;
  let constraints := constraints ++ [c2] in
  Ok constraints.

(** [penalty_weight] is received and not used; the third argument handed to
    [get_constrs] is [num_vars]. *)
Definition rosenbrock (G : globals) (var_keys param_keys : list string)
    (penalty_weight num_vars : Z) : result (list objective * list constraint) :=
  let params := make_variables param_keys in
  let vars := make_variables var_keys in
  o <- get_obj vars params num_vars ;;
  let obj := [o] in
  constrs <- get_constrs G vars params num_vars ;;
  Ok (obj, constrs).

(** Namespaces: the module imported (no [num_vars]), and a namespace in
    which [num_vars] is bound, as the script section binds it. *)
Definition imported : globals := fun _ => None.

Definition with_num_vars (n : Z) : globals :=
  fun k => if String.eqb k "num_vars" then Some n else None.

End Rosenbrock.

(** ** torch.utils.data.DataLoader, as the two scripts use it

    [DataLoader(dataset, batch_size, shuffle=..., collate_fn=...)] with the
    default [drop_last=False].  One pass asks the sampler for an order of the
    row indices (sequential, or a permutation drawn from the generator when
    [shuffle] is set), groups it into batches and fetches the rows. *)

Module Torch.

Record DataLoader (A : Type) : Type := mkDataLoader {
  dataset : list A;
  batch_size : nat;
  shuffle : bool
}.
Arguments mkDataLoader {A} dataset batch_size shuffle.
Arguments dataset {A} d.
Arguments batch_size {A} d.
Arguments shuffle {A} d.

(** BatchSampler: append indices to the current batch, emit it when it is
    full, emit the non-empty remainder at the end. *)
Fixpoint batch_sampler (b : nat) (batch idxs : list nat) : list (list nat) :=
  match idxs with
  | [] => match batch with [] => [] | _ => [batch] end
  | i :: rest =>
      let batch' := batch ++ [i] in
      if Nat.eqb (List.length batch') b
      then batch' :: batch_sampler b [] rest
      else batch_sampler b batch' rest
  end.

(** Rows of the dataset at the given indices (indices out of range fetch
    nothing; the samplers never produce one). *)
Definition fetch {A : Type} (data : list A) (idxs : list nat) : list A :=
  flat_map (fun i => match nth_error data i with Some r => [r] | None => [] end) idxs.

Section Pass.
(** The generator behind [torch.randperm]: from a state and a length, an
    order of [0 .. n-1] and the next state. *)
Context {gen : Type} (randperm : nat -> gen -> list nat * gen).
Context {A : Type}.

Definition sampler (d : DataLoader A) (s : gen) : list nat * gen :=
  let n := List.length (dataset d) in
  if shuffle d then randperm n s else (seq 0 n, s).

(** One full pass: the batches, and the generator state after it. *)
Definition epoch (d : DataLoader A) (s : gen) : list (list A) * gen :=
  let '(order, s') := sampler d s in
  (map (fetch (dataset d)) (batch_sampler (batch_size d) [] order), s').

(** The rows in the order in which a pass delivers them. *)
Definition row_order (d : DataLoader A) (s : gen) : list A :=
  List.concat (fst (epoch d s)).
End Pass.

End Torch.

Import Torch.

(** ** The script section of rosenbrock.py: its three loaders *)

Module RosenbrockMain.

Definition num_vars : Z := 10.
Definition num_data : nat := 5000.
Definition test_size : nat := 1000.
Definition val_size : nat := 1000.

Section Loaders.
Context {A : Type} (data_train data_test data_dev : list A).

Definition loader_train : DataLoader A := mkDataLoader data_train 32 true.
Definition loader_test : DataLoader A := mkDataLoader data_test 32 true.
Definition loader_dev : DataLoader A := mkDataLoader data_dev 32 true.
End Loaders.

(** The call the script makes, in the namespace the script has built. *)
Definition problem : result (list objective * list constraint) :=
  Rosenbrock.rosenbrock (Rosenbrock.with_num_vars num_vars) ["x"] ["p"; "a"] 100 num_vars.

End RosenbrockMain.

(** ** src.utlis.data_split *)

Module Utlis.


End Utlis.

(** ** submit_rb.py *)

Module SubmitRb.

Definition size_choices : list Z := [1; 10; 100; 1000; 10000]%Z.
Definition samples_choices : list Z := [800; 8000; 80000]%Z.

(** An argparse option of type int with a default and a list of choices; a
    value outside the choices ends the program. *)
Definition parse_choice (default : Z) (choices : list Z) (arg : option Z)
  : result Z :=
  match arg with
  | None => Ok default
  | Some v => if existsb (Z.eqb v) choices then Ok v else Raise SystemExit
  end.

(** The items of the dict display of line 47, as written. *)
Definition hsize_items : list (Z * Z) :=
  [(1, 4); (10, 16); (100, 64); (1000, 256); (10000, 1024); (10000, 4096)]%Z.

Definition hsize_dict : dict Z Z := dict_display Z.eqb hsize_items.

Record config : Type := mkConfig {
  size : Z;
  samples : Z;
  steepness : Z;
  batch_size : Z;
  hlayers_sol : Z;
  hlayers_rnd : Z;
  hsize : Z;
  lr : Q;
  penalty : Z
}.

(** Lines 37-53: parse the two options, then fill in the hyperparameters. *)
Definition configure (size_arg samples_arg : option Z) : result config :=
  sz <- parse_choice 1%Z size_choices size_arg ;;
  sm <- parse_choice 8000%Z samples_choices samples_arg ;;
  h <- getitem Z.eqb hsize_dict sz ;;
  Ok (mkConfig sz sm 50 64 5 4 h (1 # 1000)%Q 100)%Z.

(** *** Sampling (lines 55-63)

    The process-wide numpy generator is a stream of numbers in [0, 1); its
    state is the number of values drawn so far.  [uniform(low, high, (rows,
    cols))] fills the array in row-major order, one draw per entry.  An
    entry records which draw it came from and the value it received. *)
Section Sampling.
Variable U : nat -> Q.

Record entry : Type := mkEntry { draw : nat; val : Q }.

Definition scaled (low high : Q) (k : nat) : entry :=
  mkEntry k (low + (high - low) * U k)%Q.

Fixpoint uniform (low high : Q) (rows cols : nat) (s : nat)
  : list (list entry) * nat :=
  match rows with
  | O => ([], s)
  | S r =>
      let row := map (scaled low high) (seq s cols) in
      let '(m, s') := uniform low high r cols (s + cols) in
      (row :: m, s')
  end.

(** A datapoint of a [DictDataset({"p": p, "a": a})]: row i of p with row
    i of a. *)
Definition datapoint : Type := list entry * list entry.

Record datasets : Type := mkDatasets {
  data_train : list datapoint;
  data_test : list datapoint;
  data_val : list datapoint
}.

Definition p_low : Q := 1%Q.
Definition p_high : Q := 8%Q.
Definition a_low : Q := (1 # 2)%Q.
Definition a_high : Q := (9 # 2)%Q.

(** Six arrays drawn one after the other from the same generator, then
    paired up into the three datasets. *)
Definition sample (train_size test_size val_size num_blocks : nat) (s0 : nat)
  : datasets * nat :=
  let '(p_train, s1) := uniform p_low p_high train_size 1 s0 in
  let '(p_test, s2) := uniform p_low p_high test_size 1 s1 in
  let '(p_val, s3) := uniform p_low p_high val_size 1 s2 in
  let '(a_train, s4) := uniform a_low a_high train_size num_blocks s3 in
  let '(a_test, s5) := uniform a_low a_high test_size num_blocks s4 in
  let '(a_val, s6) := uniform a_low a_high val_size num_blocks s5 in
  (mkDatasets (combine p_train a_train) (combine p_test a_test)
              (combine p_val a_val), s6).

Definition test_size : nat := 100.
Definition val_size : nat := 1000.

(** The sampling the script performs for a parsed configuration. *)
Definition sample_config (c : config) : datasets * nat :=
  sample (Z.to_nat (samples c)) test_size val_size (Z.to_nat (size c)) 0.

End Sampling.

Section Loaders.
Context {A : Type} (data_train data_test data_val : list A).

Definition loader_train : DataLoader A := mkDataLoader data_train 64 true.
Definition loader_test : DataLoader A := mkDataLoader data_test 64 false.
Definition loader_val : DataLoader A := mkDataLoader data_val 64 true.
End Loaders.

End SubmitRb.

(** ** What the problem definition is meant to denote *)

Module Spec.

(** A non-empty [sum] read as one expression: 0 + t0 + t1 + ... *)
Definition chain (ts : list expr) : expr := fold_left Add ts (Const 0).

(** The three constraints over the index range [0 .. n-1], each carrying
    the weight [w]. *)
Definition constraints_over (x p : expr) (w n : Z) : list constraint :=
  [ Constraint (chain (map (Rosenbrock.alt_term x) (range n)))
               (Const 0) GT (PyI w) (Some "c0");
    Constraint (chain (map (Rosenbrock.sq_term x) (range n)))
               (Div (Slice p 0) (Const 2)) GT (PyI w) (Some "c1");
    Constraint (chain (map (Rosenbrock.sq_term x) (range n)))
               (Slice p 0) LT (PyI w) (Some "c2") ].

(** Finite sums of rationals, sum_{i < n} f i. *)
Fixpoint qsum (f : nat -> Q) (n : nat) : Q :=
  match n with
  | O => 0%Q
  | S k => (qsum f k + f k)%Q
  end.

(** Component i of a row. *)
Definition comp (v : list Q) (i : nat) : Q := nth i v 0%Q.

(** sum_{i=0}^{n-2} (1 - x_i)^2 + a_i (x_{i+1} - x_i^2)^2 *)
Definition rosenbrock_sum (x a : list Q) (n : nat) : Q :=
  qsum (fun i => (1 - comp x i) ^ 2
                 + comp a i * (comp x (S i) - comp x i ^ 2) ^ 2)%Q (n - 1).

(** sum_{i < n} (-1)^i x_i *)
Definition alternating_sum (x : list Q) (n : nat) : Q :=
  qsum (fun i => inject_Z ((-1) ^ Z.of_nat i) * comp x i)%Q n.

(** sum_{i < n} x_i^2 *)
Definition square_sum (x : list Q) (n : nat) : Q :=
  qsum (fun i => comp x i ^ 2)%Q n.

(** A constraint requires [P] at a datapoint when it evaluates there and is
    satisfied exactly if [P] holds. *)
Definition requires (E : Eval.env) (c : constraint) (P : Prop) : Prop :=
  exists b, Eval.satisfied E c = Some b /\ (b = true <-> P).

(** An environment binding the decision variable and the two parameters. *)
Definition point (kx kp ka : string) (x p a : list Q) : Eval.env :=
  fun k =>
    if String.eqb k kx then Some x
    else if String.eqb k kp then Some p
    else if String.eqb k ka then Some a
    else None.


(** A hyperparameter is selected through the table keyed by size when, in
    every configuration the script can build, its value is the table's entry
    for the configured size. *)
Definition selected_by_table (field : SubmitRb.config -> Z) : Prop :=
  forall sz sm c,
    SubmitRb.configure sz sm = Ok c ->
    getitem Z.eqb SubmitRb.hsize_dict (SubmitRb.size c) = Ok (field c).

(** A generator whose permutation of [0 .. n-1] is the reversed order. *)
Definition reversing (n : nat) (s : unit) : list nat * unit := (rev (seq 0 n), s).

End Spec.

(** ** Further notions for describing what the code does *)

Module Notions.

(** The distinct names of a list, each at the place of its first
    occurrence. *)
Fixpoint first_occurrences (ks : list string) : list string :=
  match ks with
  | [] => []
  | k :: ks' =>
      k :: filter (fun k' => negb (String.eqb k' k)) (first_occurrences ks')
  end.

(** A command-line option is admissible when it is left out or is one of the
    choices. *)
Definition admissible (choices : list Z) (arg : option Z) : Prop :=
  match arg with
  | None => True
  | Some v => In v choices
  end.


(** All datapoints of the three datasets: train, then test, then
    validation. *)
Definition datapoints (ds : SubmitRb.datasets) : list SubmitRb.datapoint :=
  SubmitRb.data_train ds ++ SubmitRb.data_test ds ++ SubmitRb.data_val ds.

(** A generator whose every draw for length n is an order of 0 .. n-1. *)
Definition permuting {gen : Type} (rp : nat -> gen -> list nat * gen) : Prop :=
  forall n s, Permutation (fst (rp n s)) (seq 0 n).

(** The sizes a pass over n rows in batches of b must have: full batches,
    then the remainder if there is one. *)
Definition batch_sizes (n b : nat) : list nat :=
  repeat b (n / b) ++ (if Nat.eqb (n mod b) 0 then [] else [n mod b]).

(** An expression is defined on a datapoint when it evaluates to a number
    there. *)
Definition defined (E : Eval.env) (e : expr) : Prop :=
  exists v, Eval.eval_num E e = Some v.



End Notions.

(** * Properties *)

Import Rosenbrock Eval Spec Notions.

(** ** Python runtime *)

Lemma bind_ok {A B : Type} (a : A) (k : A -> result B) :
  Py.bind (Ok a) k = k a.
Proof. reflexivity. Qed.

Lemma unpack1_arity {A : Type} (l : list A) :
  List.length l <> 1 -> unpack1 l = Raise ValueError.
Proof.
  destruct l as [|x [|y l]]; simpl; intros H; try reflexivity.
  now elim H.
Qed.

Lemma unpack2_arity {A : Type} (l : list A) :
  List.length l <> 2 -> unpack2 l = Raise ValueError.
Proof.
  destruct l as [|x [|y [|z l]]]; simpl; intros H; try reflexivity.
  now elim H.
Qed.

Lemma unpack1_total {A : Type} (l : list A) :
  (exists x, l = [x] /\ unpack1 l = Ok x) \/ unpack1 l = Raise ValueError.
Proof.
  destruct l as [|x [|y l]]; simpl; eauto.
Qed.

Lemma unpack2_total {A : Type} (l : list A) :
  (exists p a, l = [p; a] /\ unpack2 l = Ok (p, a)) \/ unpack2 l = Raise ValueError.
Proof.
  destruct l as [|x [|y [|z l]]]; simpl; eauto.
Qed.

Lemma range_nonpos (n : Z) : (n <= 0)%Z -> range n = [].
Proof.
  intros H. unfold range.
  replace (Z.to_nat n) with 0 by lia. reflexivity.
Qed.

Lemma range_of_nat (k : nat) : range (Z.of_nat k) = map Z.of_nat (seq 0 k).
Proof. unfold range. now rewrite Nat2Z.id. Qed.

Lemma range_pos (n : Z) :
  (1 <= n)%Z -> exists k, n = Z.of_nat (S k) /\ range n = 0%Z :: map Z.of_nat (seq 1 k).
Proof.
  intros H. unfold range.
  destruct (Z.to_nat n) as [|k] eqn:Hk; [lia|].
  exists k. split; [lia | reflexivity].
Qed.

(** ** [sum] over expressions *)

Lemma fold_sum_step (ts : list expr) (e : expr) :
  fold_left sum_step ts (SumVar e) = SumVar (fold_left Add ts e).
Proof.
  revert e. induction ts as [|t ts IH]; intros e; simpl; [reflexivity|].
  apply IH.
Qed.

Lemma py_sum_nil : py_sum [] = SumInt 0.
Proof. reflexivity. Qed.

Lemma py_sum_cons (t : expr) (ts : list expr) :
  py_sum (t :: ts) = SumVar (chain (t :: ts)).
Proof. unfold py_sum, chain. simpl. apply fold_sum_step. Qed.

Lemma py_sum_range (term : Z -> expr) (n : Z) :
  (1 <= n)%Z -> py_sum (map term (range n)) = SumVar (chain (map term (range n))).
Proof.
  intros H. destruct (range_pos n H) as (k & _ & ->). simpl map.
  apply py_sum_cons.
Qed.

Lemma py_sum_range_empty (term : Z -> expr) (n : Z) :
  (n <= 0)%Z -> py_sum (map term (range n)) = SumInt 0.
Proof. intros H. now rewrite range_nonpos. Qed.

(** ** get_obj and get_constrs on dicts of the right arity *)

Lemma get_obj_ok (kx kp ka : string) (x p a : expr) (nv : Z) :
  (2 <= nv)%Z ->
  get_obj [(kx, x)] [(kp, p); (ka, a)] nv
  = Ok (Objective (chain (map (obj_term x a) (range (nv - 1))))
                  Minimize (PyF 1) (Some "obj")).
Proof.
  intros H. unfold get_obj. simpl.
  rewrite py_sum_range by lia. reflexivity.
Qed.

Lemma get_obj_small (kx kp ka : string) (x p a : expr) (nv : Z) :
  (nv < 2)%Z -> get_obj [(kx, x)] [(kp, p); (ka, a)] nv = Raise AttributeError.
Proof.
  intros H. unfold get_obj. simpl.
  rewrite py_sum_range_empty by lia. reflexivity.
Qed.

Lemma get_constrs_bound (G : globals) (g : Z) (kx kp ka : string)
    (x p a : expr) (w : Z) :
  G "num_vars" = Some g -> (1 <= g)%Z ->
  get_constrs G [(kx, x)] [(kp, p); (ka, a)] w = Ok (constraints_over x p w g).
Proof.
  intros HG Hg. unfold get_constrs, load_global. simpl. rewrite HG. simpl.
  rewrite !py_sum_range by exact Hg. reflexivity.
Qed.

Lemma get_constrs_unbound (G : globals) (kx kp ka : string) (x p a : expr) (w : Z) :
  G "num_vars" = None ->
  get_constrs G [(kx, x)] [(kp, p); (ka, a)] w = Raise NameError.
Proof.
  intros HG. unfold get_constrs, load_global. simpl. now rewrite HG.
Qed.

Lemma get_constrs_empty_range (G : globals) (g : Z) (kx kp ka : string)
    (x p a : expr) (w : Z) :
  G "num_vars" = Some g -> (g <= 0)%Z ->
  get_constrs G [(kx, x)] [(kp, p); (ka, a)] w = Raise AttributeError.
Proof.
  intros HG Hg. unfold get_constrs, load_global. simpl. rewrite HG. simpl.
  rewrite py_sum_range_empty by exact Hg. reflexivity.
Qed.

(** ** Evaluation of the sums *)

Lemma eval_num_inv (E : env) (e : expr) (q : Q) :
  eval_num E e = Some q -> eval E e = Some (Num q).
Proof.
  unfold eval_num. destruct (eval E e) as [[v|v]|]; intros H; now inversion H.
Qed.

Lemma eval_num_const (E : env) (z : Z) : eval_num E (Const z) = Some (inject_Z z).
Proof. reflexivity. Qed.

Lemma eval_num_slice (E : env) (x : expr) (xs : list Q) (i : nat) :
  eval E x = Some (Row xs) -> i < List.length xs ->
  eval_num E (Slice x (Z.of_nat i)) = Some (comp xs i).
Proof.
  intros Hx Hi. unfold eval_num. simpl. rewrite Hx. unfold Py.index.
  destruct (Z.leb_spec 0 (Z.of_nat i)) as [_|Hneg]; [|lia].
  rewrite Nat2Z.id, (nth_error_nth' xs 0%Q Hi). reflexivity.
Qed.

Section BinaryNodes.
Variables (E : env) (a b : expr) (va vb : Q).
Hypothesis Ha : eval_num E a = Some va.
Hypothesis Hb : eval_num E b = Some vb.

Lemma eval_num_add : eval_num E (Add a b) = Some (va + vb)%Q.
Proof.
  unfold eval_num. simpl.
  now rewrite (eval_num_inv _ _ _ Ha), (eval_num_inv _ _ _ Hb).
Qed.

Lemma eval_num_sub : eval_num E (Sub a b) = Some (va - vb)%Q.
Proof.
  unfold eval_num. simpl.
  now rewrite (eval_num_inv _ _ _ Ha), (eval_num_inv _ _ _ Hb).
Qed.

Lemma eval_num_mul : eval_num E (Mul a b) = Some (va * vb)%Q.
Proof.
  unfold eval_num. simpl.
  now rewrite (eval_num_inv _ _ _ Ha), (eval_num_inv _ _ _ Hb).
Qed.
End BinaryNodes.

Lemma eval_num_square (E : env) (a : expr) (va : Q) :
  eval_num E a = Some va -> eval_num E (Pow a (Const 2)) = Some (va ^ 2)%Q.
Proof.
  intros Ha. unfold eval_num. simpl.
  now rewrite (eval_num_inv _ _ _ Ha).
Qed.

Lemma eval_num_half (E : env) (a : expr) (va : Q) :
  eval_num E a = Some va -> eval_num E (Div a (Const 2)) = Some (va / 2)%Q.
Proof.
  intros Ha. unfold eval_num. simpl.
  now rewrite (eval_num_inv _ _ _ Ha).
Qed.

Lemma chain_snoc (ts : list expr) (t : expr) :
  chain (ts ++ [t]) = Add (chain ts) t.
Proof. unfold chain. now rewrite fold_left_app. Qed.

(** The left-nested chain over [range n] evaluates to the finite sum of the
    values of its terms. *)
Lemma eval_num_chain (E : env) (term : Z -> expr) (f : nat -> Q) (n : nat) :
  (forall i, i < n -> eval_num E (term (Z.of_nat i)) = Some (f i)) ->
  eval_num E (chain (map term (range (Z.of_nat n)))) = Some (qsum f n).
Proof.
  induction n as [|n IH]; intros Hterm.
  - reflexivity.
  - rewrite range_of_nat, seq_S, !map_app. cbn [map].
    rewrite chain_snoc, <- range_of_nat.
    apply eval_num_add.
    + apply IH. intros i Hi. apply Hterm. lia.
    + apply Hterm. lia.
Qed.

Lemma eval_obj_term (E : env) (x a : expr) (xs av : list Q) (i : nat) :
  eval E x = Some (Row xs) -> eval E a = Some (Row av) ->
  S i < List.length xs -> i < List.length av ->
  eval_num E (obj_term x a (Z.of_nat i))
  = Some ((1 - comp xs i) ^ 2 + comp av i * (comp xs (S i) - comp xs i ^ 2) ^ 2)%Q.
Proof.
  intros Hx Ha Hi Hj. unfold obj_term.
  replace (Z.of_nat i + 1)%Z with (Z.of_nat (S i)) by lia.
  apply eval_num_add.
  - apply eval_num_square.
    apply (eval_num_sub E (Const 1) (Slice x (Z.of_nat i)) 1%Q).
    + reflexivity.
    + apply eval_num_slice; [assumption | lia].
  - apply eval_num_mul.
    + now apply eval_num_slice.
    + apply eval_num_square. apply eval_num_sub.
      * now apply eval_num_slice.
      * apply eval_num_square. apply eval_num_slice; [assumption | lia].
Qed.

Lemma eval_alt_term (E : env) (x : expr) (xs : list Q) (i : nat) :
  eval E x = Some (Row xs) -> i < List.length xs ->
  eval_num E (alt_term x (Z.of_nat i))
  = Some (inject_Z ((-1) ^ Z.of_nat i) * comp xs i)%Q.
Proof.
  intros Hx Hi. unfold alt_term. apply eval_num_mul.
  - reflexivity.
  - now apply eval_num_slice.
Qed.

Lemma eval_sq_term (E : env) (x : expr) (xs : list Q) (i : nat) :
  eval E x = Some (Row xs) -> i < List.length xs ->
  eval_num E (sq_term x (Z.of_nat i)) = Some (comp xs i ^ 2)%Q.
Proof.
  intros Hx Hi. unfold sq_term. apply eval_num_square.
  now apply eval_num_slice.
Qed.

(** ** The dicts built by [rosenbrock] *)

Lemma make_variables_one (kx : string) : make_variables [kx] = [(kx, Var kx)].
Proof. reflexivity. Qed.

Lemma make_variables_two (kp ka : string) :
  kp <> ka -> make_variables [kp; ka] = [(kp, Var kp); (ka, Var ka)].
Proof.
  intros H. unfold make_variables, fill. simpl.
  destruct (String.eqb_spec ka kp) as [Heq|_]; [now elim H | reflexivity].
Qed.

Lemma get_obj_ok_inv (vars params : dict string expr) (nv : Z) (o : objective) :
  get_obj vars params nv = Ok o ->
  exists kx kp ka x p a, vars = [(kx, x)] /\ params = [(kp, p); (ka, a)].
Proof.
  unfold get_obj.
  destruct vars as [|[kx x] [|? ?]]; simpl; try discriminate.
  destruct params as [|[kp p] [|[ka a] [|? ?]]]; simpl; try discriminate.
  intros _. now exists kx, kp, ka, x, p, a.
Qed.

Lemma get_obj_raises_small (vars params : dict string expr) (nv : Z) :
  (nv < 2)%Z -> raises (get_obj vars params nv).
Proof.
  intros H. unfold get_obj, raises.
  destruct (unpack1_total (values vars)) as [(x & _ & ->)| ->]; simpl; [|eauto].
  destruct (unpack2_total (values params)) as [(p & a & _ & ->)| ->]; simpl; [|eauto].
  rewrite py_sum_range_empty by lia. simpl. eauto.
Qed.

Lemma rosenbrock_raises_with_get_obj (G : globals) (vk pk : list string) (pw nv : Z) :
  raises (get_obj (make_variables vk) (make_variables pk) nv) ->
  raises (rosenbrock G vk pk pw nv).
Proof.
  intros [e He]. exists e. unfold rosenbrock. now rewrite He.
Qed.

(** ** Claims on the problem definition *)

(** C2. For every [num_vars >= 2], [get_obj] returns an objective named
    "obj", to be minimised, whose expression evaluates on a datapoint to
    sum_{i=0}^{num_vars-2} (1 - x_i)^2 + a_i (x_{i+1} - x_i^2)^2; for
    [num_vars = 3] its value at x = [1,1,1], a = [1,1] is 0. *)
Theorem get_obj_rosenbrock_sum :
  (forall (kx kp ka : string) (x p a : expr) (nv : Z) (E : env) (xs av : list Q),
      (2 <= nv)%Z ->
      eval E x = Some (Row xs) -> eval E a = Some (Row av) ->
      (nv <= Z.of_nat (List.length xs))%Z ->
      (nv - 1 <= Z.of_nat (List.length av))%Z ->
      exists o,
        get_obj [(kx, x)] [(kp, p); (ka, a)] nv = Ok o
        /\ obj_name o = Some "obj"
        /\ obj_sense o = Minimize
        /\ eval_num E (obj_var o) = Some (rosenbrock_sum xs av (Z.to_nat nv)))
  /\ (exists o,
        get_obj (make_variables ["x"]) (make_variables ["p"; "a"]) 3 = Ok o
        /\ eval_num (point "x" "p" "a" [1; 1; 1] [3] [1; 1])%Q (obj_var o)
           = Some 0%Q).
Proof.
  split.
  - intros kx kp ka x p a nv E xs av Hnv Hx Ha Hxs Hav.
    rewrite get_obj_ok by exact Hnv.
    eexists. repeat split. simpl obj_var.
    unfold rosenbrock_sum.
    replace (nv - 1)%Z with (Z.of_nat (Z.to_nat nv - 1)) by lia.
    apply eval_num_chain. intros i Hi.
    apply eval_obj_term with (xs := xs) (av := av); try assumption; lia.
  - eexists. split; reflexivity.
Qed.

Lemma get_obj_rosenbrock_sum_witness :
  (2 <= 3)%Z
  /\ exists o,
       get_obj [("x", Var "x")] [("p", Var "p"); ("a", Var "a")] 3 = Ok o
       /\ obj_name o = Some "obj"
       /\ obj_sense o = Minimize
       /\ eval_num (point "x" "p" "a" [1; 1; 1] [3] [1; 1])%Q (obj_var o)
          = Some (rosenbrock_sum [1; 1; 1] [1; 1] 3)%Q.
Proof.
  split; [lia|].
  apply (proj1 get_obj_rosenbrock_sum "x" "p" "a" (Var "x") (Var "p") (Var "a") 3%Z
           (point "x" "p" "a" [1; 1; 1] [3] [1; 1])%Q [1; 1; 1]%Q [1; 1]%Q);
    [lia | reflexivity | reflexivity | simpl; lia | simpl; lia].
Defined.

(** C5. For every [num_vars < 2] the construction of the objective raises:
    the empty [sum] is the int 0, which has no [minimize]; no objective,
    empty or otherwise, is returned, by [get_obj] or by [rosenbrock]. *)
Theorem get_obj_fails_below_two :
  forall nv : Z,
    (nv < 2)%Z ->
    (forall vars params, raises (get_obj vars params nv))
    /\ (forall kx kp ka x p a,
           get_obj [(kx, x)] [(kp, p); (ka, a)] nv = Raise AttributeError)
    /\ (forall G vk pk pw, raises (rosenbrock G vk pk pw nv)).
Proof.
  intros nv Hnv. repeat split.
  - intros vars params. now apply get_obj_raises_small.
  - intros. now apply get_obj_small.
  - intros G vk pk pw. apply rosenbrock_raises_with_get_obj.
    now apply get_obj_raises_small.
Qed.

Lemma get_obj_fails_below_two_witness :
  (1 < 2)%Z
  /\ get_obj [("x", Var "x")] [("p", Var "p"); ("a", Var "a")] 1
     = Raise AttributeError
  /\ raises (rosenbrock (with_num_vars 1) ["x"] ["p"; "a"] 100 1).
Proof.
  pose proof (get_obj_fails_below_two 1%Z ltac:(lia)) as (_ & H2 & H3).
  split; [lia|]. split; [apply H2 | apply H3].
Defined.

Lemma requires_ge (E : env) (c : constraint) (l r : Q) :
  cmp c = GT -> eval_num E (left c) = Some l -> eval_num E (right c) = Some r ->
  requires E c (r <= l)%Q.
Proof.
  intros Hc Hl Hr. unfold requires, satisfied. rewrite Hl, Hr, Hc.
  eexists. split; [reflexivity | apply Qle_bool_iff].
Qed.

Lemma requires_le (E : env) (c : constraint) (l r : Q) :
  cmp c = LT -> eval_num E (left c) = Some l -> eval_num E (right c) = Some r ->
  requires E c (l <= r)%Q.
Proof.
  intros Hc Hl Hr. unfold requires, satisfied. rewrite Hl, Hr, Hc.
  eexists. split; [reflexivity | apply Qle_bool_iff].
Qed.

Lemma eval_alt_chain (E : env) (x : expr) (xs : list Q) (g : Z) :
  eval E x = Some (Row xs) -> (g <= Z.of_nat (List.length xs))%Z ->
  eval_num E (chain (map (alt_term x) (range g)))
  = Some (alternating_sum xs (Z.to_nat g)).
Proof.
  intros Hx Hg. destruct (Z.le_gt_cases g 0) as [Hle|Hgt].
  - rewrite range_nonpos by exact Hle.
    replace (Z.to_nat g) with 0 by lia. reflexivity.
  - replace g with (Z.of_nat (Z.to_nat g)) at 1 by lia.
    apply eval_num_chain. intros i Hi. apply eval_alt_term; [assumption | lia].
Qed.

Lemma eval_sq_chain (E : env) (x : expr) (xs : list Q) (g : Z) :
  eval E x = Some (Row xs) -> (g <= Z.of_nat (List.length xs))%Z ->
  eval_num E (chain (map (sq_term x) (range g)))
  = Some (square_sum xs (Z.to_nat g)).
Proof.
  intros Hx Hg. destruct (Z.le_gt_cases g 0) as [Hle|Hgt].
  - rewrite range_nonpos by exact Hle.
    replace (Z.to_nat g) with 0 by lia. reflexivity.
  - replace g with (Z.of_nat (Z.to_nat g)) at 1 by lia.
    apply eval_num_chain. intros i Hi. apply eval_sq_term; [assumption | lia].
Qed.

(** C3. [get_constrs] returns, in this order, c0 requiring
    sum_i (-1)^i x_i >= 0, c1 requiring sum_i x_i^2 >= p/2 and c2 requiring
    sum_i x_i^2 <= p, the sums running over the index range bound in the
    module namespace.  At x = [1,1,1], p = 3 the sum of squares is 3, c1
    holds (3 >= 3/2) and c2 holds with equality; at x = [1,-1,1] the body
    of c0 is 3 and c0 holds. *)
Theorem get_constrs_meaning :
  (forall (G : globals) (g : Z) (kx kp ka : string) (x p a : expr) (w : Z)
          (E : env) (xs ps : list Q) (p0 : Q),
      G "num_vars" = Some g -> (1 <= g)%Z ->
      eval E x = Some (Row xs) -> eval E p = Some (Row (p0 :: ps)) ->
      (g <= Z.of_nat (List.length xs))%Z ->
      exists c0 c1 c2,
        get_constrs G [(kx, x)] [(kp, p); (ka, a)] w = Ok [c0; c1; c2]
        /\ name c0 = Some "c0" /\ name c1 = Some "c1" /\ name c2 = Some "c2"
        /\ eval_num E (left c0) = Some (alternating_sum xs (Z.to_nat g))
        /\ requires E c0 (0 <= alternating_sum xs (Z.to_nat g))%Q
        /\ eval_num E (left c1) = Some (square_sum xs (Z.to_nat g))
        /\ requires E c1 (p0 / 2 <= square_sum xs (Z.to_nat g))%Q
        /\ eval_num E (left c2) = Some (square_sum xs (Z.to_nat g))
        /\ requires E c2 (square_sum xs (Z.to_nat g) <= p0)%Q)
  /\ (exists c0 c1 c2,
        get_constrs (with_num_vars 3) (make_variables ["x"])
                    (make_variables ["p"; "a"]) 100 = Ok [c0; c1; c2]
        /\ eval_num (point "x" "p" "a" [1; 1; 1] [3] [1; 1])%Q (left c1) = Some 3%Q
        /\ eval_num (point "x" "p" "a" [1; 1; 1] [3] [1; 1])%Q (right c1)
           = Some (3 # 2)%Q
        /\ satisfied (point "x" "p" "a" [1; 1; 1] [3] [1; 1])%Q c1 = Some true
        /\ eval_num (point "x" "p" "a" [1; 1; 1] [3] [1; 1])%Q (left c2) = Some 3%Q
        /\ eval_num (point "x" "p" "a" [1; 1; 1] [3] [1; 1])%Q (right c2) = Some 3%Q
        /\ satisfied (point "x" "p" "a" [1; 1; 1] [3] [1; 1])%Q c2 = Some true
        /\ eval_num (point "x" "p" "a" [1; -1; 1] [3] [1; 1])%Q (left c0) = Some 3%Q
        /\ eval_num (point "x" "p" "a" [1; -1; 1] [3] [1; 1])%Q (right c0) = Some 0%Q
        /\ satisfied (point "x" "p" "a" [1; -1; 1] [3] [1; 1])%Q c0 = Some true).
Proof.
  split.
  - intros G g kx kp ka x p a w E xs ps p0 HG Hg Hx Hp Hxs.
    rewrite (get_constrs_bound G g) by assumption.
    unfold constraints_over. do 3 eexists.
    split; [reflexivity|]. do 3 (split; [reflexivity|]).
    assert (Hp0 : eval_num E (Slice p 0) = Some p0)
      by exact (eval_num_slice E p (p0 :: ps) 0 Hp (Nat.lt_0_succ _)).
    pose proof (eval_alt_chain E x xs g Hx Hxs) as Halt.
    pose proof (eval_sq_chain E x xs g Hx Hxs) as Hsq.
    repeat split; try assumption.
    + apply requires_ge; [reflexivity | exact Halt | reflexivity].
    + apply requires_ge; [reflexivity | exact Hsq |].
      now apply eval_num_half.
    + apply requires_le; [reflexivity | exact Hsq | exact Hp0].
  - do 3 eexists. split; [reflexivity|]. repeat split.
Qed.

Lemma get_constrs_meaning_witness :
  (1 <= 3)%Z
  /\ exists c0 c1 c2,
       get_constrs (with_num_vars 3) [("x", Var "x")]
                   [("p", Var "p"); ("a", Var "a")] 100 = Ok [c0; c1; c2]
       /\ requires (point "x" "p" "a" [1; -1; 1] [3] [1; 1])%Q c0
                   (0 <= alternating_sum [1; -1; 1] 3)%Q
       /\ requires (point "x" "p" "a" [1; -1; 1] [3] [1; 1])%Q c1
                   (3 / 2 <= square_sum [1; -1; 1] 3)%Q
       /\ requires (point "x" "p" "a" [1; -1; 1] [3] [1; 1])%Q c2
                   (square_sum [1; -1; 1] 3 <= 3)%Q.
Proof.
  split; [lia|].
  destruct (proj1 get_constrs_meaning (with_num_vars 3) 3%Z "x" "p" "a"
              (Var "x") (Var "p") (Var "a") 100%Z
              (point "x" "p" "a" [1; -1; 1] [3] [1; 1])%Q [1; -1; 1]%Q []%Q 3%Q)
    as (c0 & c1 & c2 & H & _ & _ & _ & _ & R0 & _ & R1 & _ & R2);
    [reflexivity | lia | reflexivity | reflexivity | simpl; lia |].
  now exists c0, c1, c2.
Defined.

Lemma rosenbrock_bound (G : globals) (g : Z) (kx kp ka : string) (pw nv : Z) :
  G "num_vars" = Some g -> (1 <= g)%Z -> kp <> ka -> (2 <= nv)%Z ->
  rosenbrock G [kx] [kp; ka] pw nv
  = Ok ([Objective (chain (map (obj_term (Var kx) (Var ka)) (range (nv - 1))))
                   Minimize (PyF 1) (Some "obj")],
        constraints_over (Var kx) (Var kp) nv g).
Proof.
  intros HG Hg Hk Hnv. unfold rosenbrock.
  rewrite make_variables_one, (make_variables_two kp ka Hk).
  rewrite get_obj_ok by exact Hnv. simpl.
  now rewrite (get_constrs_bound G g) by assumption.
Qed.

(** C1. At the call the script section makes,
    [rosenbrock(["x"], ["p", "a"], penalty_weight=100, num_vars=10)], the
    three constraints are returned with weight 10, the [num_vars] argument,
    and not with the [penalty_weight] argument 100. *)
Theorem main_constraints_weighted_by_num_vars :
  exists objs cs,
    RosenbrockMain.problem = Ok (objs, cs)
    /\ map name cs = [Some "c0"; Some "c1"; Some "c2"]
    /\ map weight cs = [PyI 10; PyI 10; PyI 10]
    /\ map weight cs <> [PyI 100; PyI 100; PyI 100]
    /\ cs = constraints_over (Var "x") (Var "p") 10 10.
Proof.
  do 2 eexists. split; [reflexivity|]. simpl.
  repeat split. discriminate.
Qed.

(** C6. The result of [rosenbrock] on one and the same argument tuple
    varies with the module namespace: with [num_vars] bound to 3, bound to
    2, or unbound, the call (["x"], ["p", "a"], 100, 3) gives three
    different outcomes. *)
Theorem rosenbrock_result_varies_with_namespace :
  returns (rosenbrock (with_num_vars 3) ["x"] ["p"; "a"] 100 3)
  /\ returns (rosenbrock (with_num_vars 2) ["x"] ["p"; "a"] 100 3)
  /\ rosenbrock (with_num_vars 3) ["x"] ["p"; "a"] 100 3
     <> rosenbrock (with_num_vars 2) ["x"] ["p"; "a"] 100 3
  /\ rosenbrock imported ["x"] ["p"; "a"] 100 3 = Raise NameError.
Proof.
  repeat split.
  - eexists. reflexivity.
  - eexists. reflexivity.
  - discriminate.
Qed.

(** C10. [get_constrs] reads [num_vars] from the module namespace.  Where
    the namespace has no such binding, building c0 raises NameError for any
    variable, parameters and weight; a call of [rosenbrock] that gets as far
    as the constraints raises NameError, and none returns.  Where
    [num_vars] is bound to g, the constraints returned by [rosenbrock] range
    over [0 .. g-1] whatever the [num_vars] argument is. *)
Theorem get_constrs_reads_module_num_vars :
  forall G : globals,
    (G "num_vars" = None ->
       (forall kx kp ka x p a w,
           get_constrs G [(kx, x)] [(kp, p); (ka, a)] w = Raise NameError)
       /\ (forall vk pk pw nv o,
              get_obj (make_variables vk) (make_variables pk) nv = Ok o ->
              rosenbrock G vk pk pw nv = Raise NameError)
       /\ (forall vk pk pw nv, raises (rosenbrock G vk pk pw nv)))
    /\ (forall g : Z,
          G "num_vars" = Some g -> (1 <= g)%Z ->
          forall kx kp ka pw nv,
            kp <> ka -> (2 <= nv)%Z ->
            exists o,
              rosenbrock G [kx] [kp; ka] pw nv
              = Ok ([o], constraints_over (Var kx) (Var kp) nv g)).
Proof.
  intros G. split.
  - intros HG.
    assert (Hreach : forall vk pk pw nv o,
               get_obj (make_variables vk) (make_variables pk) nv = Ok o ->
               rosenbrock G vk pk pw nv = Raise NameError).
    { intros vk pk pw nv o Ho. unfold rosenbrock. rewrite Ho. simpl.
      destruct (get_obj_ok_inv _ _ _ _ Ho) as (kx & kp & ka & x & p & a & -> & ->).
      now rewrite get_constrs_unbound. }
    repeat split.
    + intros. now apply get_constrs_unbound.
    + exact Hreach.
    + intros vk pk pw nv.
      destruct (get_obj (make_variables vk) (make_variables pk) nv) as [o|e] eqn:Ho.
      * exists NameError. now apply (Hreach vk pk pw nv o).
      * exists e. unfold rosenbrock. now rewrite Ho.
  - intros g HG Hg kx kp ka pw nv Hk Hnv.
    eexists. now apply rosenbrock_bound.
Qed.

Lemma get_constrs_reads_module_num_vars_witness :
  (imported "num_vars" = None
   /\ get_constrs imported [("x", Var "x")] [("p", Var "p"); ("a", Var "a")] 100
      = Raise NameError
   /\ rosenbrock imported ["x"] ["p"; "a"] 100 10 = Raise NameError)
  /\ (with_num_vars 2 "num_vars" = Some 2%Z
      /\ exists o,
           rosenbrock (with_num_vars 2) ["x"] ["p"; "a"] 100 3
           = Ok ([o], constraints_over (Var "x") (Var "p") 3 2)).
Proof.
  split.
  - destruct (proj1 (get_constrs_reads_module_num_vars imported) eq_refl)
      as (H1 & H2 & _).
    split; [reflexivity|]. split; [apply H1|].
    eapply H2. reflexivity.
  - split; [reflexivity|].
    apply (proj2 (get_constrs_reads_module_num_vars (with_num_vars 2)) 2%Z eq_refl);
      [lia | discriminate | lia].
Defined.

(** ** Keys of a dict filled from a list of names *)

Section DictKeys.
Context {K V : Type} (eqb : K -> K -> bool).
Hypothesis eqb_spec : forall a b, reflect (a = b) (eqb a b).

Lemma dict_set_keys_in (d : dict K V) (k : K) (v : V) (k' : K) :
  In k' (keys (dict_set eqb d k v)) <-> k' = k \/ In k' (keys d).
Proof.
  induction d as [|[k0 v0] d IH]; simpl.
  - intuition congruence.
  - destruct (eqb_spec k k0) as [->|Hne]; simpl.
    + intuition congruence.
    + unfold keys in IH. rewrite IH. intuition congruence.
Qed.

Lemma dict_set_keys_nodup (d : dict K V) (k : K) (v : V) :
  NoDup (keys d) -> NoDup (keys (dict_set eqb d k v)).
Proof.
  induction d as [|[k0 v0] d IH]; simpl; intros Hd.
  - constructor; [intros [] | constructor].
  - inversion Hd as [|? ? Hnot Hrest]; subst.
    destruct (eqb_spec k k0) as [->|Hne]; simpl.
    + now constructor.
    + constructor; [|now apply IH].
      intros Hin. apply (dict_set_keys_in d k v k0) in Hin.
      destruct Hin as [Heq|Hin]; [now elim Hne | now elim Hnot].
Qed.

Variable mk : K -> V.

Lemma fill_keys_in (ks : list K) (d0 : dict K V) (k' : K) :
  In k' (keys (fill eqb mk d0 ks)) <-> In k' (keys d0) \/ In k' ks.
Proof.
  revert d0. induction ks as [|k ks IH]; intros d0.
  - simpl. tauto.
  - change (fill eqb mk d0 (k :: ks))
      with (fill eqb mk (dict_set eqb d0 k (mk k)) ks).
    rewrite IH, dict_set_keys_in. simpl. intuition congruence.
Qed.

Lemma fill_keys_nodup (ks : list K) (d0 : dict K V) :
  NoDup (keys d0) -> NoDup (keys (fill eqb mk d0 ks)).
Proof.
  revert d0. induction ks as [|k ks IH]; intros d0 Hd.
  - exact Hd.
  - change (fill eqb mk d0 (k :: ks))
      with (fill eqb mk (dict_set eqb d0 k (mk k)) ks).
    apply IH. now apply dict_set_keys_nodup.
Qed.
End DictKeys.

(** The dict has one entry per distinct name. *)
Lemma make_variables_length (ks : list string) :
  List.length (values (make_variables ks)) = List.length (nodup string_dec ks).
Proof.
  unfold values. rewrite length_map, <- (length_map fst).
  apply Permutation_length, NoDup_Permutation.
  - apply (fill_keys_nodup String.eqb String.eqb_spec variable ks []). constructor.
  - apply NoDup_nodup.
  - intros k. rewrite nodup_In.
    pose proof (fill_keys_in String.eqb String.eqb_spec variable ks [] k) as H.
    unfold make_variables. simpl in H. tauto.
Qed.

(** C4 (as the code has it). [rosenbrock] raises ValueError, while
    unpacking in [get_obj], whenever the number of distinct decision-variable
    names is other than one or the number of distinct parameter names is
    other than two. *)
Theorem rosenbrock_arity_of_distinct_names :
  forall (G : globals) (vk pk : list string) (pw nv : Z),
    List.length (nodup string_dec vk) <> 1
    \/ List.length (nodup string_dec pk) <> 2 ->
    get_obj (make_variables vk) (make_variables pk) nv = Raise ValueError
    /\ rosenbrock G vk pk pw nv = Raise ValueError.
Proof.
  intros G vk pk pw nv H.
  assert (Hobj : get_obj (make_variables vk) (make_variables pk) nv
                 = Raise ValueError).
  { unfold get_obj. rewrite <- !make_variables_length in H.
    destruct (unpack1_total (values (make_variables vk)))
      as [(x & Hv & ->)| ->]; [|reflexivity].
    destruct H as [H|H]; [rewrite Hv in H; now elim H|].
    simpl. now rewrite (unpack2_arity _ H). }
  split; [exact Hobj|].
  unfold rosenbrock. now rewrite Hobj.
Qed.

Lemma rosenbrock_arity_of_distinct_names_witness :
  List.length (nodup string_dec ["x"; "y"]) <> 1
  /\ rosenbrock (with_num_vars 3) ["x"; "y"] ["p"; "a"] 100 3 = Raise ValueError.
Proof.
  split; [simpl; lia|].
  apply (rosenbrock_arity_of_distinct_names (with_num_vars 3) ["x"; "y"]
           ["p"; "a"] 100%Z 3%Z).
  left. simpl. lia.
Defined.

(** C4 (as stated) fails: two decision-variable names, or three parameter
    names, are accepted when a name is repeated, and the call returns what
    it returns for the name given once. *)
Lemma repeated_name_is_accepted :
  List.length ["x"; "x"] <> 1
  /\ ~ raises (rosenbrock (with_num_vars 3) ["x"; "x"] ["p"; "a"] 100 3)
  /\ rosenbrock (with_num_vars 3) ["x"; "x"] ["p"; "a"] 100 3
     = rosenbrock (with_num_vars 3) ["x"] ["p"; "a"] 100 3
  /\ List.length ["p"; "a"; "p"] <> 2
  /\ ~ raises (rosenbrock (with_num_vars 3) ["x"] ["p"; "a"; "p"] 100 3)
  /\ returns (get_obj (make_variables ["x"; "x"]) (make_variables ["p"; "a"; "p"]) 3).
Proof.
  repeat split; try discriminate.
  - intros [e He]. discriminate He.
  - intros [e He]. discriminate He.
  - eexists. reflexivity.
Qed.

(** ** submit_rb.py: hyperparameters *)

Lemma hsize_dict_value :
  SubmitRb.hsize_dict
  = [(1, 4); (10, 16); (100, 64); (1000, 256); (10000, 4096)]%Z.
Proof. reflexivity. Qed.

Lemma configure_ok (sz sm : option Z) (c : SubmitRb.config) :
  SubmitRb.configure sz sm = Ok c ->
  exists s m h,
    SubmitRb.parse_choice 1 SubmitRb.size_choices sz = Ok s
    /\ SubmitRb.parse_choice 8000 SubmitRb.samples_choices sm = Ok m
    /\ getitem Z.eqb SubmitRb.hsize_dict s = Ok h
    /\ c = SubmitRb.mkConfig s m 50 64 5 4 h (1 # 1000)%Q 100.
Proof.
  unfold SubmitRb.configure.
  destruct (SubmitRb.parse_choice 1 SubmitRb.size_choices sz) as [s|];
    [|discriminate].
  destruct (SubmitRb.parse_choice 8000 SubmitRb.samples_choices sm) as [m|];
    [|discriminate].
  rewrite !bind_ok.
  destruct (getitem Z.eqb SubmitRb.hsize_dict s) as [h|] eqn:Hh; [|discriminate].
  rewrite bind_ok. intros H. inversion H. now exists s, m, h.
Qed.

(** C7 (as the code has it). For every size among the command-line
    choices the configuration is built; of the hyperparameters only the
    hidden width is read from the table keyed by size, while batch size,
    learning rate and penalty weight are the constants 64, 1/1000 and 100
    for every size.  The table's display lists the key 10000 twice, with
    1024 and then 4096; the later item replaces the earlier one, and the
    hidden width for size 10000 is 4096. *)
Theorem hidden_width_by_size :
  forall (s : Z) (sm : option Z) (m : Z),
    In s SubmitRb.size_choices ->
    SubmitRb.parse_choice 8000 SubmitRb.samples_choices sm = Ok m ->
    (exists c,
        SubmitRb.configure (Some s) sm = Ok c
        /\ SubmitRb.size c = s
        /\ getitem Z.eqb SubmitRb.hsize_dict s = Ok (SubmitRb.hsize c)
        /\ SubmitRb.batch_size c = 64%Z
        /\ SubmitRb.lr c = (1 # 1000)%Q
        /\ SubmitRb.penalty c = 100%Z
        /\ (s = 10000%Z -> SubmitRb.hsize c = 4096%Z))
    /\ selected_by_table SubmitRb.hsize
    /\ In (10000, 1024)%Z SubmitRb.hsize_items
    /\ In (10000, 4096)%Z SubmitRb.hsize_items
    /\ dict_get Z.eqb SubmitRb.hsize_dict 10000%Z = Some 4096%Z.
Proof.
  intros s sm m Hs Hm. split; [|split; [|repeat split]].
  - unfold SubmitRb.configure. rewrite Hm.
    simpl in Hs.
    destruct Hs as [<-|[<-|[<-|[<-|[<-|[]]]]]]; simpl;
      (eexists; repeat split; try reflexivity; simpl; intros; lia).
  - intros sz sm' c Hc.
    destruct (configure_ok sz sm' c Hc) as (s' & m' & h & _ & _ & Hh & ->).
    exact Hh.
  - simpl. tauto.
  - simpl. tauto.
Qed.

Lemma hidden_width_by_size_witness :
  In 10000%Z SubmitRb.size_choices
  /\ exists c,
       SubmitRb.configure (Some 10000%Z) (Some 800%Z) = Ok c
       /\ SubmitRb.hsize c = 4096%Z
       /\ SubmitRb.batch_size c = 64%Z
       /\ SubmitRb.penalty c = 100%Z.
Proof.
  split; [simpl; tauto|].
  destruct (hidden_width_by_size 10000%Z (Some 800%Z) 800%Z) as [(c & Hc & _ & _ & Hb & _ & Hp & Hh) _];
    [simpl; tauto | reflexivity |].
  exists c. repeat split; try assumption. now apply Hh.
Defined.

(** C7 (as stated) fails: batch size and penalty weight are not read from
    the table keyed by size; for size 1 the table holds 4, the batch size is
    64 and the penalty weight 100, as they are for size 10000. *)
Lemma batch_size_and_penalty_not_from_table :
  ~ selected_by_table SubmitRb.batch_size
  /\ ~ selected_by_table SubmitRb.penalty
  /\ (exists c1 c2,
         SubmitRb.configure (Some 1%Z) None = Ok c1
         /\ SubmitRb.configure (Some 10000%Z) None = Ok c2
         /\ getitem Z.eqb SubmitRb.hsize_dict 1%Z = Ok 4%Z
         /\ SubmitRb.batch_size c1 = 64%Z /\ SubmitRb.batch_size c2 = 64%Z
         /\ SubmitRb.penalty c1 = 100%Z /\ SubmitRb.penalty c2 = 100%Z
         /\ SubmitRb.lr c1 = SubmitRb.lr c2).
Proof.
  repeat split.
  - intros H. specialize (H (Some 1%Z) None _ eq_refl). discriminate H.
  - intros H. specialize (H (Some 1%Z) None _ eq_refl). discriminate H.
  - do 2 eexists. repeat split; reflexivity.
Qed.

(** ** Batch iteration *)

Lemma concat_batch_sampler (b : nat) (idxs batch : list nat) :
  List.concat (batch_sampler b batch idxs) = batch ++ idxs.
Proof.
  revert batch. induction idxs as [|i rest IH]; intros batch; simpl.
  - destruct batch; simpl; now rewrite ?app_nil_r.
  - destruct (Nat.eqb (List.length (batch ++ [i])) b); simpl; rewrite IH.
    + now rewrite <- app_assoc.
    + now rewrite <- app_assoc.
Qed.

(** 105 rows in batches of 32: three full batches and a last one of 9. *)
Example batch_sizes_of_105_rows :
  map (@List.length nat) (batch_sampler 32 [] (seq 0 105)) = [32; 32; 32; 9].
Proof. reflexivity. Qed.

Lemma fetch_concat {A : Type} (data : list A) (bs : list (list nat)) :
  List.concat (map (fetch data) bs) = fetch data (List.concat bs).
Proof.
  unfold fetch. induction bs as [|b bs IH]; simpl; [reflexivity|].
  now rewrite IH, flat_map_app.
Qed.

Lemma fetch_suffix {A : Type} (data pre : list A) :
  fetch (pre ++ data) (seq (List.length pre) (List.length data)) = data.
Proof.
  revert pre. induction data as [|r data IH]; intros pre; simpl; [reflexivity|].
  rewrite nth_error_app2, Nat.sub_diag by lia. simpl. f_equal.
  specialize (IH (pre ++ [r])).
  rewrite <- app_assoc, length_app, Nat.add_1_r in IH. exact IH.
Qed.

Lemma fetch_all {A : Type} (data : list A) :
  fetch data (seq 0 (List.length data)) = data.
Proof. exact (fetch_suffix data []). Qed.

Section PassOrder.
Context {gen : Type} (randperm : nat -> gen -> list nat * gen).
Context {A : Type}.

(** The rows of a pass are those the sampler's order names, in that
    order, whatever the batch size. *)
Lemma row_order_sampler (d : DataLoader A) (s : gen) :
  row_order randperm d s = fetch (dataset d) (fst (sampler randperm d s)).
Proof.
  unfold row_order, epoch. destruct (sampler randperm d s) as [order s'].
  simpl. now rewrite fetch_concat, concat_batch_sampler.
Qed.

Lemma row_order_sequential (d : DataLoader A) (s : gen) :
  shuffle d = false -> row_order randperm d s = dataset d.
Proof.
  intros H. rewrite row_order_sampler. unfold sampler. rewrite H. simpl.
  apply fetch_all.
Qed.

Lemma row_order_shuffled (d : DataLoader A) (s : gen) :
  shuffle d = true ->
  row_order randperm d s
  = fetch (dataset d) (fst (randperm (List.length (dataset d)) s))
  /\ snd (epoch randperm d s) = snd (randperm (List.length (dataset d)) s).
Proof.
  intros H. rewrite row_order_sampler. unfold epoch, sampler. rewrite H.
  destruct (randperm (List.length (dataset d)) s) as [order s']. now simpl.
Qed.
End PassOrder.

(** C8. In submit_rb.py a pass over the test loader delivers the rows in
    their original order, and a pass over the train or validation loader
    delivers them in the order the generator draws for that pass.  In the
    script section of rosenbrock.py the test loader is built with
    [shuffle=True]: its passes follow the generator's order as well, and
    with a generator that reverses, three rows come out reversed. *)
Theorem test_loader_order :
  (forall (gen : Type) (rp : nat -> gen -> list nat * gen) (A : Type)
          (d : list A) (s : gen),
      row_order rp (SubmitRb.loader_test d) s = d
      /\ row_order rp (SubmitRb.loader_train d) s
         = fetch d (fst (rp (List.length d) s))
      /\ snd (epoch rp (SubmitRb.loader_train d) s) = snd (rp (List.length d) s)
      /\ row_order rp (SubmitRb.loader_val d) s
         = fetch d (fst (rp (List.length d) s))
      /\ snd (epoch rp (SubmitRb.loader_val d) s) = snd (rp (List.length d) s)
      /\ row_order rp (RosenbrockMain.loader_test d) s
         = fetch d (fst (rp (List.length d) s)))
  /\ shuffle (RosenbrockMain.loader_test ["r0"; "r1"; "r2"]) = true
  /\ row_order reversing (RosenbrockMain.loader_test ["r0"; "r1"; "r2"]) tt
     = ["r2"; "r1"; "r0"]
  /\ row_order reversing (SubmitRb.loader_test ["r0"; "r1"; "r2"]) tt
     = ["r0"; "r1"; "r2"].
Proof.
  split; [|repeat split].
  intros gen rp A d s.
  split; [now apply row_order_sequential|].
  split; [now apply (row_order_shuffled rp (SubmitRb.loader_train d) s)|].
  split; [now apply (row_order_shuffled rp (SubmitRb.loader_train d) s)|].
  split; [now apply (row_order_shuffled rp (SubmitRb.loader_val d) s)|].
  split; [now apply (row_order_shuffled rp (SubmitRb.loader_val d) s)|].
  now apply (row_order_shuffled rp (RosenbrockMain.loader_test d) s).
Qed.

(** ** Splits *)





(** Sampling: shape of an array and the draws it consumes. *)
Section Uniform.
Variable U : nat -> Q.
Variables low high : Q.


Lemma uniform_state (rows cols s : nat) :
  snd (SubmitRb.uniform U low high rows cols s) = s + rows * cols.
Proof.
  revert s. induction rows as [|r IH]; intros s; simpl; [lia|].
  specialize (IH (s + cols)).
  destruct (SubmitRb.uniform U low high r cols (s + cols)) as [m s'].
  simpl in *. lia.
Qed.

End Uniform.



(** * Further properties of the code *)

(** ** The dicts of [rosenbrock], key by key *)

Lemma filter_filter_and {A : Type} (f g : A -> bool) (l : list A) :
  filter f (filter g l) = filter (fun x => g x && f x) l.
Proof.
  induction l as [|x l IH]; simpl; [reflexivity|].
  destruct (g x); simpl; [destruct (f x)|]; now rewrite IH.
Qed.

Lemma filter_all {A : Type} (f : A -> bool) (l : list A) :
  (forall x, In x l -> f x = true) -> filter f l = l.
Proof.
  induction l as [|x l IH]; simpl; intros H; [reflexivity|].
  rewrite (H x) by now left. f_equal. apply IH. intros y Hy. apply H. now right.
Qed.

Lemma mem_string (k : string) (l : list string) :
  existsb (String.eqb k) l = true <-> In k l.
Proof.
  rewrite existsb_exists. split.
  - intros (y & Hy & He). apply String.eqb_eq in He. now subst.
  - intros H. exists k. split; [exact H | apply String.eqb_refl].
Qed.

Lemma dict_set_known (l : list string) (k : string) :
  In k l ->
  dict_set String.eqb (map (fun k => (k, variable k)) l) k (variable k)
  = map (fun k => (k, variable k)) l.
Proof.
  induction l as [|k0 l IH]; simpl; intros H; [contradiction|].
  destruct (String.eqb_spec k k0) as [->|Hne]; [reflexivity|].
  f_equal. apply IH. destruct H as [H|H]; [now elim Hne | exact H].
Qed.

Lemma dict_set_new (l : list string) (k : string) :
  ~ In k l ->
  dict_set String.eqb (map (fun k => (k, variable k)) l) k (variable k)
  = map (fun k => (k, variable k)) (l ++ [k]).
Proof.
  induction l as [|k0 l IH]; simpl; intros H; [reflexivity|].
  destruct (String.eqb_spec k k0) as [->|Hne]; [elim H; now left|].
  f_equal. apply IH. intros Hin. apply H. now right.
Qed.

Lemma fill_first_occurrences (ks seen : list string) :
  fill String.eqb variable (map (fun k => (k, variable k)) seen) ks
  = map (fun k => (k, variable k))
        (seen ++ filter (fun k => negb (existsb (String.eqb k) seen))
                        (first_occurrences ks)).
Proof.
  revert seen. induction ks as [|k ks IH]; intros seen.
  - simpl. now rewrite app_nil_r.
  - change (fill String.eqb variable (map (fun k => (k, variable k)) seen) (k :: ks))
      with (fill String.eqb variable
              (dict_set String.eqb (map (fun k => (k, variable k)) seen) k (variable k))
              ks).
    simpl first_occurrences. simpl filter.
    destruct (existsb (String.eqb k) seen) eqn:Hk; simpl negb; cbv iota.
    + apply mem_string in Hk. rewrite dict_set_known by exact Hk.
      rewrite IH, filter_filter_and. do 2 f_equal.
      apply filter_ext_in. intros x _.
      destruct (String.eqb_spec x k) as [->|Hne]; simpl; [|reflexivity].
      apply (proj2 (mem_string k seen)) in Hk. now rewrite Hk.
    + assert (Hnot : ~ In k seen).
      { intros Hin. apply mem_string in Hin. congruence. }
      rewrite dict_set_new by exact Hnot.
      rewrite IH, filter_filter_and, <- app_assoc. simpl. do 3 f_equal.
      apply filter_ext. intros x. rewrite existsb_app. simpl.
      rewrite orb_false_r, negb_orb. apply andb_comm.
Qed.

Lemma first_occurrences_in (ks : list string) (k : string) :
  In k (first_occurrences ks) <-> In k ks.
Proof.
  induction ks as [|k0 ks IH]; simpl; [tauto|].
  rewrite filter_In, IH. split.
  - intros [H|[H _]]; auto.
  - intros [H|H]; [now left|].
    destruct (String.eqb_spec k k0) as [->|Hne]; [now left|].
    right. split; [exact H|reflexivity].
Qed.

Lemma first_occurrences_nodup (ks : list string) : NoDup (first_occurrences ks).
Proof.
  induction ks as [|k ks IH]; simpl; constructor.
  - rewrite filter_In. intros [_ H]. now rewrite String.eqb_refl in H.
  - now apply NoDup_filter.
Qed.

Lemma make_variables_map (ks : list string) :
  make_variables ks = map (fun k => (k, Var k)) (first_occurrences ks).
Proof.
  unfold make_variables.
  change (@nil (string * expr)) with (map (fun k => (k, variable k)) []).
  rewrite fill_first_occurrences. simpl. f_equal.
  apply filter_all. reflexivity.
Qed.

(** X1. The dict that [rosenbrock] fills from a list of names holds one
    variable per distinct name, under that name and named by it, in the
    order in which the names first occur. *)
Theorem make_variables_first_occurrences :
  forall ks : list string,
    make_variables ks = map (fun k => (k, Var k)) (first_occurrences ks)
    /\ NoDup (keys (make_variables ks))
    /\ (forall k, In k (keys (make_variables ks)) <-> In k ks)
    /\ (forall k, In k ks -> dict_get String.eqb (make_variables ks) k = Some (Var k))
    /\ (forall k, ~ In k ks -> dict_get String.eqb (make_variables ks) k = None).
Proof.
  intros ks.
  pose proof (make_variables_map ks) as Hmk.
  assert (Hkeys : keys (make_variables ks) = first_occurrences ks).
  { rewrite Hmk. unfold keys. rewrite map_map. simpl. apply map_id. }
  assert (Hget : forall l k,
             dict_get String.eqb (map (fun k => (k, Var k)) l) k
             = if existsb (String.eqb k) l then Some (Var k) else None).
  { intros l k. induction l as [|k0 l IH]; simpl; [reflexivity|].
    destruct (String.eqb_spec k k0) as [->|Hne]; simpl; [reflexivity | exact IH]. }
  split; [exact Hmk|]. rewrite Hkeys.
  split; [apply first_occurrences_nodup|].
  split; [apply first_occurrences_in|].
  split; intros k Hk; rewrite Hmk, Hget.
  - apply (proj2 (first_occurrences_in ks k)) in Hk.
    apply (proj2 (mem_string k _)) in Hk. now rewrite Hk.
  - destruct (existsb (String.eqb k) (first_occurrences ks)) eqn:He; [|reflexivity].
    apply mem_string in He. apply (proj1 (first_occurrences_in ks k)) in He.
    now elim Hk.
Qed.

(** ** Every outcome of [rosenbrock] *)

Lemma get_obj_arity (vars params : dict string expr) (nv : Z) :
  List.length vars <> 1 \/ List.length params <> 2 ->
  get_obj vars params nv = Raise ValueError.
Proof.
  intros H. unfold get_obj.
  destruct (unpack1_total (values vars)) as [(x & Hv & ->)| ->]; [|reflexivity].
  destruct H as [H|H].
  - elim H. unfold values in Hv. now rewrite <- (length_map snd), Hv.
  - simpl. rewrite unpack2_arity; [reflexivity|].
    unfold values. now rewrite length_map.
Qed.

(** X2. The outcome of every call of [rosenbrock], by cases in the order in
    which the code reaches them: ValueError unless the distinct names are one
    variable and two parameters; then AttributeError if [num_vars < 2]; then
    NameError if the module has no [num_vars]; then AttributeError if that
    module-level [num_vars] is not positive; otherwise one objective "obj"
    and the constraints c0, c1, c2 over the module-level range, weighted by
    the [num_vars] argument.  The [penalty_weight] argument plays no part. *)
Theorem rosenbrock_outcome :
  forall (G : globals) (vk pk : list string) (pw nv : Z),
    rosenbrock G vk pk pw nv
    = match first_occurrences vk, first_occurrences pk with
      | [kx], [kp; ka] =>
          if (nv <? 2)%Z then Raise AttributeError
          else match G "num_vars" with
               | None => Raise NameError
               | Some g =>
                   if (g <=? 0)%Z then Raise AttributeError
                   else Ok ([Objective
                               (chain (map (obj_term (Var kx) (Var ka))
                                           (range (nv - 1))))
                               Minimize (PyF 1) (Some "obj")],
                            constraints_over (Var kx) (Var kp) nv g)
               end
      | _, _ => Raise ValueError
      end.
Proof.
  intros G vk pk pw nv. unfold rosenbrock.
  rewrite (make_variables_map vk), (make_variables_map pk).
  destruct (first_occurrences vk) as [|kx [|kx' vk']];
    try (rewrite get_obj_arity; [reflexivity | left; simpl; lia]).
  destruct (first_occurrences pk) as [|kp [|ka [|k3 pk']]];
    try (rewrite get_obj_arity; [reflexivity | right; simpl; lia]).
  simpl map.
  destruct (Z.ltb_spec nv 2) as [Hlt|Hge].
  - now rewrite get_obj_small.
  - rewrite get_obj_ok by exact Hge. rewrite bind_ok.
    destruct (G "num_vars") as [g|] eqn:HG.
    + destruct (Z.leb_spec g 0) as [Hle|Hgt].
      * now rewrite (get_constrs_empty_range G g).
      * rewrite (get_constrs_bound G g) by (assumption || lia). reflexivity.
    + now rewrite get_constrs_unbound.
Qed.

(** ** Values of the objective *)

Lemma eval_objective (E : env) (x a : expr) (xs av : list Q) (nv : Z) :
  (2 <= nv)%Z ->
  eval E x = Some (Row xs) -> eval E a = Some (Row av) ->
  (nv <= Z.of_nat (List.length xs))%Z ->
  (nv - 1 <= Z.of_nat (List.length av))%Z ->
  eval_num E (chain (map (obj_term x a) (range (nv - 1))))
  = Some (rosenbrock_sum xs av (Z.to_nat nv)).
Proof.
  intros Hnv Hx Ha Hxs Hav. unfold rosenbrock_sum.
  replace (nv - 1)%Z with (Z.of_nat (Z.to_nat nv - 1)) by lia.
  apply eval_num_chain. intros i Hi.
  apply eval_obj_term with (xs := xs) (av := av); try assumption; lia.
Qed.

Lemma square_nonneg (q : Q) : (0 <= q ^ 2)%Q.
Proof.
  destruct q as [n d]. unfold Qle. simpl.
  rewrite Z.mul_1_r. apply Z.square_nonneg.
Qed.

Lemma qsum_nonneg (f : nat -> Q) (n : nat) :
  (forall i, i < n -> (0 <= f i)%Q) -> (0 <= qsum f n)%Q.
Proof.
  induction n as [|n IH]; intros H; simpl.
  - apply Qle_refl.
  - assert (0 <= qsum f n)%Q by (apply IH; intros i Hi; apply H; lia).
    assert (0 <= f n)%Q by (apply H; lia).
    lra.
Qed.

Lemma qsum_zero (f : nat -> Q) (n : nat) :
  (forall i, i < n -> (f i == 0)%Q) -> (qsum f n == 0)%Q.
Proof.
  induction n as [|n IH]; intros H; simpl.
  - reflexivity.
  - rewrite IH by (intros i Hi; apply H; lia).
    rewrite (H n) by lia. ring.
Qed.

(** X3. For [num_vars >= 2] the objective built by [get_obj] has, on every
    datapoint wide enough, a value that is never negative when the
    coefficients a_i are not negative, and that is 0 at x = (1, ..., 1)
    whatever the coefficients. *)
Theorem objective_minimum :
  forall (kx kp ka : string) (x p a : expr) (nv : Z) (E : env) (xs av : list Q),
    (2 <= nv)%Z ->
    eval E x = Some (Row xs) -> eval E a = Some (Row av) ->
    (nv <= Z.of_nat (List.length xs))%Z ->
    (nv - 1 <= Z.of_nat (List.length av))%Z ->
    exists o v,
      get_obj [(kx, x)] [(kp, p); (ka, a)] nv = Ok o
      /\ eval_num E (obj_var o) = Some v
      /\ ((forall i, (Z.of_nat i < nv - 1)%Z -> (0 <= comp av i)%Q) -> (0 <= v)%Q)
      /\ ((forall i, (Z.of_nat i < nv)%Z -> (comp xs i == 1)%Q) -> (v == 0)%Q).
Proof.
  intros kx kp ka x p a nv E xs av Hnv Hx Ha Hxs Hav.
  rewrite get_obj_ok by exact Hnv.
  do 2 eexists. split; [reflexivity|].
  split; [simpl obj_var; apply (eval_objective E x a xs av nv); assumption|].
  unfold rosenbrock_sum. split.
  - intros Hpos. apply qsum_nonneg. intros i Hi.
    pose proof (square_nonneg (1 - comp xs i)) as H1.
    pose proof (square_nonneg (comp xs (S i) - comp xs i ^ 2)) as H2.
    assert (H3 : (0 <= comp av i)%Q) by (apply Hpos; lia).
    pose proof (Qmult_le_0_compat _ _ H3 H2). lra.
  - intros Hone. apply qsum_zero. intros i Hi.
    assert (H1 : (comp xs i == 1)%Q) by (apply Hone; lia).
    assert (H2 : (comp xs (S i) == 1)%Q) by (apply Hone; lia).
    simpl. rewrite H1, H2. ring.
Qed.

Lemma objective_minimum_witness :
  (2 <= 4)%Z
  /\ exists o v,
       get_obj [("x", Var "x")] [("p", Var "p"); ("a", Var "a")] 4 = Ok o
       /\ eval_num (point "x" "p" "a" [1; 1; 1; 1] [2] [(1 # 2); 3; 0])%Q (obj_var o)
          = Some v
       /\ (0 <= v)%Q /\ (v == 0)%Q.
Proof.
  split; [lia|].
  destruct (objective_minimum "x" "p" "a" (Var "x") (Var "p") (Var "a") 4%Z
              (point "x" "p" "a" [1; 1; 1; 1] [2] [(1 # 2); 3; 0])%Q
              [1; 1; 1; 1]%Q [(1 # 2); 3; 0]%Q)
    as (o & v & Ho & Hv & Hpos & Hone);
    [lia | reflexivity | reflexivity | simpl; lia | simpl; lia |].
  exists o, v. split; [exact Ho|]. split; [exact Hv|]. split.
  - apply Hpos. intros [|[|[|i]]] Hi; try lia; unfold comp, Qle; simpl; lia.
  - apply Hone. intros [|[|[|[|i]]]] Hi; try lia; reflexivity.
Defined.

(** ** Which datapoints an expression can be evaluated on *)

Lemma num2_defined (f : Q -> Q -> option Q) (a b : option value) (v : value) :
  num2 f a b = Some v -> exists x y, a = Some (Num x) /\ b = Some (Num y).
Proof.
  destruct a as [[x|?]|]; simpl; try discriminate.
  destruct b as [[y|?]|]; simpl; try discriminate.
  intros _. now exists x, y.
Qed.

Lemma eval_num_of_eval (E : env) (e : expr) (q : Q) :
  eval E e = Some (Num q) -> eval_num E e = Some q.
Proof. intros H. unfold eval_num. now rewrite H. Qed.

Section Operands.
Variables (E : env) (a b : expr).

Lemma operands_defined (f : Q -> Q -> option Q) (v : value) :
  num2 f (eval E a) (eval E b) = Some v -> defined E a /\ defined E b.
Proof.
  intros H. destruct (num2_defined _ _ _ _ H) as (x & y & Ha & Hb).
  split; [exists x | exists y]; now apply eval_num_of_eval.
Qed.

Lemma add_defined : defined E (Add a b) -> defined E a /\ defined E b.
Proof. intros [v H]. apply eval_num_inv in H. exact (operands_defined _ _ H). Qed.

Lemma sub_defined : defined E (Sub a b) -> defined E a /\ defined E b.
Proof. intros [v H]. apply eval_num_inv in H. exact (operands_defined _ _ H). Qed.

Lemma mul_defined : defined E (Mul a b) -> defined E a /\ defined E b.
Proof. intros [v H]. apply eval_num_inv in H. exact (operands_defined _ _ H). Qed.

Lemma pow_defined : defined E (Pow a b) -> defined E a /\ defined E b.
Proof. intros [v H]. apply eval_num_inv in H. exact (operands_defined _ _ H). Qed.
End Operands.

Lemma slice_defined (E : env) (x : expr) (xs : list Q) (i : nat) :
  eval E x = Some (Row xs) -> defined E (Slice x (Z.of_nat i)) ->
  i < List.length xs.
Proof.
  intros Hx [v H]. apply eval_num_inv in H. simpl in H. rewrite Hx in H.
  unfold Py.index in H.
  destruct (Z.leb_spec 0 (Z.of_nat i)) as [_|Hneg]; [|lia].
  rewrite Nat2Z.id in H. apply nth_error_Some.
  destruct (nth_error xs i); [discriminate | discriminate H].
Qed.

Lemma fold_add_defined (E : env) (ts : list expr) (acc : expr) :
  defined E (fold_left Add ts acc) ->
  defined E acc /\ Forall (defined E) ts.
Proof.
  revert acc. induction ts as [|t ts IH]; intros acc H; simpl in H.
  - split; [exact H | constructor].
  - destruct (IH _ H) as [Hacc Hts].
    destruct (add_defined _ _ _ Hacc) as [Ha Ht].
    split; [exact Ha | now constructor].
Qed.

Lemma chain_term_defined (E : env) (term : Z -> expr) (n : Z) (i : nat) :
  defined E (chain (map term (range n))) -> (Z.of_nat i < n)%Z ->
  defined E (term (Z.of_nat i)).
Proof.
  intros H Hi. destruct (fold_add_defined _ _ _ H) as [_ Hall].
  rewrite Forall_forall in Hall. apply Hall.
  apply in_map. unfold range. apply in_map. apply in_seq. lia.
Qed.

(** X4. For [num_vars >= 2] the objective built by [get_obj] evaluates on a
    datapoint exactly when its x row has at least [num_vars] columns and its
    a row at least [num_vars - 1]; on a narrower row an index is out of
    range and there is no value. *)
Theorem objective_defined_iff :
  forall (kx kp ka : string) (x p a : expr) (nv : Z) (E : env) (xs av : list Q),
    (2 <= nv)%Z ->
    eval E x = Some (Row xs) -> eval E a = Some (Row av) ->
    exists o,
      get_obj [(kx, x)] [(kp, p); (ka, a)] nv = Ok o
      /\ (defined E (obj_var o)
          <-> (nv <= Z.of_nat (List.length xs))%Z
              /\ (nv - 1 <= Z.of_nat (List.length av))%Z).
Proof.
  intros kx kp ka x p a nv E xs av Hnv Hx Ha.
  rewrite get_obj_ok by exact Hnv. eexists. split; [reflexivity|].
  simpl obj_var. split.
  - intros Hdef.
    assert (Hlast : defined E (obj_term x a (Z.of_nat (Z.to_nat nv - 2))))
      by (apply (chain_term_defined E _ (nv - 1)); [exact Hdef | lia]).
    unfold obj_term in Hlast.
    destruct (add_defined _ _ _ Hlast) as [_ Hmul].
    destruct (mul_defined _ _ _ Hmul) as [Hai Hpow].
    destruct (pow_defined _ _ _ Hpow) as [Hsub _].
    destruct (sub_defined _ _ _ Hsub) as [Hxi _].
    replace (Z.of_nat (Z.to_nat nv - 2) + 1)%Z
      with (Z.of_nat (S (Z.to_nat nv - 2))) in Hxi by lia.
    pose proof (slice_defined E a av _ Ha Hai).
    pose proof (slice_defined E x xs _ Hx Hxi).
    lia.
  - intros [Hxs Hav]. eexists. now apply (eval_objective E x a xs av nv).
Qed.

Lemma objective_defined_iff_witness :
  (2 <= 3)%Z
  /\ exists o,
       get_obj [("x", Var "x")] [("p", Var "p"); ("a", Var "a")] 3 = Ok o
       /\ ~ defined (point "x" "p" "a" [1; 1] [3] [1; 1])%Q (obj_var o).
Proof.
  split; [lia|].
  destruct (objective_defined_iff "x" "p" "a" (Var "x") (Var "p") (Var "a") 3%Z
              (point "x" "p" "a" [1; 1] [3] [1; 1])%Q [1; 1]%Q [1; 1]%Q)
    as (o & Ho & Hiff); [lia | reflexivity | reflexivity |].
  exists o. split; [exact Ho|].
  intros Hdef. apply Hiff in Hdef. simpl in Hdef. lia.
Defined.

Lemma satisfied_defined (E : env) (c : constraint) :
  satisfied E c <> None <-> defined E (left c) /\ defined E (right c).
Proof.
  unfold satisfied, defined.
  destruct (eval_num E (left c)) as [l|], (eval_num E (right c)) as [r|]; split;
    intros H;
    try (now elim H);
    try (destruct H as [[? ?] [? ?]]; discriminate);
    try discriminate.
  split; eexists; reflexivity.
Qed.

Lemma qsum_ext (f h : nat -> Q) (n : nat) :
  (forall i, i < n -> f i = h i) -> qsum f n = qsum h n.
Proof.
  induction n as [|n IH]; intros H; simpl; [reflexivity|].
  rewrite IH by (intros i Hi; apply H; lia). now rewrite (H n) by lia.
Qed.

Lemma comp_firstn (v : list Q) (n i : nat) :
  i < n -> comp (firstn n v) i = comp v i.
Proof.
  unfold comp. revert v i. induction n as [|n IH]; intros v i Hi; [lia|].
  destruct v as [|q v]; simpl; [reflexivity|].
  destruct i as [|i]; [reflexivity|]. apply IH. lia.
Qed.

(** X5. The constraints built by [get_constrs] with the module-level
    [num_vars] bound to g >= 1 can be evaluated on a datapoint exactly when
    its x row has at least g columns, and then they read the first g columns
    only: two datapoints with the same bound p whose x rows agree on the
    first g columns satisfy the same constraints. *)
Theorem constraints_read_first_columns :
  forall (G : globals) (g : Z) (kx kp ka : string) (x p a : expr) (w : Z)
         (E E' : env) (xs xs' ps : list Q) (p0 : Q),
    G "num_vars" = Some g -> (1 <= g)%Z ->
    eval E x = Some (Row xs) -> eval E p = Some (Row (p0 :: ps)) ->
    eval E' x = Some (Row xs') -> eval E' p = Some (Row (p0 :: ps)) ->
    exists cs,
      get_constrs G [(kx, x)] [(kp, p); (ka, a)] w = Ok cs
      /\ (forall c, In c cs ->
            (satisfied E c <> None <-> (g <= Z.of_nat (List.length xs))%Z))
      /\ (firstn (Z.to_nat g) xs = firstn (Z.to_nat g) xs' ->
          forall c, In c cs -> satisfied E c = satisfied E' c).
Proof.
  intros G g kx kp ka x p a w E E' xs xs' ps p0 HG Hg Hx Hp Hx' Hp'.
  rewrite (get_constrs_bound G g) by assumption.
  eexists. split; [reflexivity|].
  assert (Hp0 : forall F, eval F p = Some (Row (p0 :: ps)) ->
                          eval_num F (Slice p 0) = Some p0).
  { intros F HF. exact (eval_num_slice F p (p0 :: ps) 0 HF (Nat.lt_0_succ _)). }
  assert (Hwidth : forall F ys (term : Z -> expr),
             eval F x = Some (Row ys) ->
             (forall i, defined F (term (Z.of_nat i)) -> defined F (Slice x (Z.of_nat i))) ->
             defined F (chain (map term (range g))) ->
             (g <= Z.of_nat (List.length ys))%Z).
  { intros F ys term HF Hterm Hdef.
    pose proof (chain_term_defined F term g (Z.to_nat g - 1) Hdef ltac:(lia)) as Ht.
    pose proof (slice_defined F x ys _ HF (Hterm _ Ht)). lia. }
  assert (Halt : forall i, defined E (alt_term x (Z.of_nat i)) ->
                           defined E (Slice x (Z.of_nat i))).
  { intros i H. unfold alt_term in H. now destruct (mul_defined _ _ _ H). }
  assert (Hsq : forall i, defined E (sq_term x (Z.of_nat i)) ->
                          defined E (Slice x (Z.of_nat i))).
  { intros i H. unfold sq_term in H. now destruct (pow_defined _ _ _ H). }
  split.
  - intros c Hc. rewrite satisfied_defined. unfold constraints_over in Hc.
    simpl in Hc. destruct Hc as [<-|[<-|[<-|[]]]]; simpl left; simpl right.
    + split.
      * intros [Hl _]. exact (Hwidth E xs _ Hx Halt Hl).
      * intros Hw. split; [eexists; now apply (eval_alt_chain E x xs g) |].
        eexists. reflexivity.
    + split.
      * intros [Hl _]. exact (Hwidth E xs _ Hx Hsq Hl).
      * intros Hw. split; [eexists; now apply (eval_sq_chain E x xs g) |].
        eexists. apply eval_num_half. now apply Hp0.
    + split.
      * intros [Hl _]. exact (Hwidth E xs _ Hx Hsq Hl).
      * intros Hw. split; [eexists; now apply (eval_sq_chain E x xs g) |].
        eexists. now apply Hp0.
  - intros Hagree c Hc.
    destruct (Z.le_gt_cases g (Z.of_nat (List.length xs))) as [Hw|Hw];
      destruct (Z.le_gt_cases g (Z.of_nat (List.length xs'))) as [Hw'|Hw'].
    + assert (Hcomp : forall i, i < Z.to_nat g -> comp xs i = comp xs' i).
      { intros i Hi. rewrite <- (comp_firstn xs (Z.to_nat g) i Hi), Hagree.
        now apply comp_firstn. }
      assert (Ha : alternating_sum xs (Z.to_nat g) = alternating_sum xs' (Z.to_nat g)).
      { apply qsum_ext. intros i Hi. now rewrite (Hcomp i Hi). }
      assert (Hs : square_sum xs (Z.to_nat g) = square_sum xs' (Z.to_nat g)).
      { apply qsum_ext. intros i Hi. now rewrite (Hcomp i Hi). }
      unfold constraints_over in Hc. simpl in Hc.
      destruct Hc as [<-|[<-|[<-|[]]]]; unfold satisfied; simpl left; simpl right;
        simpl cmp;
        rewrite ?(eval_alt_chain E x xs g Hx Hw), ?(eval_alt_chain E' x xs' g Hx' Hw'),
          ?(eval_sq_chain E x xs g Hx Hw), ?(eval_sq_chain E' x xs' g Hx' Hw'),
          ?(eval_num_half E _ _ (Hp0 E Hp)), ?(eval_num_half E' _ _ (Hp0 E' Hp')),
          ?(Hp0 E Hp), ?(Hp0 E' Hp'), ?eval_num_const, ?Ha, ?Hs; reflexivity.
    + exfalso. apply (f_equal (@List.length Q)) in Hagree.
      rewrite !length_firstn in Hagree. lia.
    + exfalso. apply (f_equal (@List.length Q)) in Hagree.
      rewrite !length_firstn in Hagree. lia.
    + rewrite !firstn_all2 in Hagree by lia. subst xs'.
      assert (Hnone : forall F, eval F x = Some (Row xs) -> satisfied F c = None).
      { intros F HF. destruct (satisfied F c) eqn:Hs; [|reflexivity]. exfalso.
        assert (Hd : satisfied F c <> None) by (rewrite Hs; discriminate).
        apply satisfied_defined in Hd. destruct Hd as [Hl _].
        unfold constraints_over in Hc. simpl in Hc.
        destruct Hc as [<-|[<-|[<-|[]]]]; simpl left in Hl.
        - assert (Hterm : forall i, defined F (alt_term x (Z.of_nat i)) ->
                                    defined F (Slice x (Z.of_nat i))).
          { intros i H. unfold alt_term in H. now destruct (mul_defined _ _ _ H). }
          pose proof (Hwidth F xs _ HF Hterm Hl). lia.
        - assert (Hterm : forall i, defined F (sq_term x (Z.of_nat i)) ->
                                    defined F (Slice x (Z.of_nat i))).
          { intros i H. unfold sq_term in H. now destruct (pow_defined _ _ _ H). }
          pose proof (Hwidth F xs _ HF Hterm Hl). lia.
        - assert (Hterm : forall i, defined F (sq_term x (Z.of_nat i)) ->
                                    defined F (Slice x (Z.of_nat i))).
          { intros i H. unfold sq_term in H. now destruct (pow_defined _ _ _ H). }
          pose proof (Hwidth F xs _ HF Hterm Hl). lia. }
      now rewrite (Hnone E Hx), (Hnone E' Hx').
Qed.

Lemma constraints_read_first_columns_witness :
  (1 <= 2)%Z
  /\ exists cs,
       get_constrs (with_num_vars 2) [("x", Var "x")]
                   [("p", Var "p"); ("a", Var "a")] 100 = Ok cs
       /\ forall c, In c cs ->
            satisfied (point "x" "p" "a" [1; -1; 5] [3] [1; 1])%Q c
            = satisfied (point "x" "p" "a" [1; -1; 7] [3] [1; 1])%Q c.
Proof.
  split; [lia|].
  destruct (constraints_read_first_columns (with_num_vars 2) 2%Z "x" "p" "a"
              (Var "x") (Var "p") (Var "a") 100%Z
              (point "x" "p" "a" [1; -1; 5] [3] [1; 1])%Q
              (point "x" "p" "a" [1; -1; 7] [3] [1; 1])%Q
              [1; -1; 5]%Q [1; -1; 7]%Q []%Q 3%Q)
    as (cs & Hcs & _ & Hsame);
    [reflexivity | lia | reflexivity | reflexivity | reflexivity | reflexivity |].
  exists cs. split; [exact Hcs|]. apply Hsame. reflexivity.
Defined.

(** ** submit_rb.py: outcome of the configuration *)

Lemma parse_choice_cases (default : Z) (choices : list Z) (arg : option Z) :
  (admissible choices arg
   /\ exists v, SubmitRb.parse_choice default choices arg = Ok v
                /\ (v = default \/ In v choices))
  \/ (~ admissible choices arg
      /\ SubmitRb.parse_choice default choices arg = Raise SystemExit).
Proof.
  destruct arg as [v|]; simpl.
  - destruct (existsb (Z.eqb v) choices) eqn:He.
    + left. apply existsb_exists in He. destruct He as (y & Hy & Hv).
      apply Z.eqb_eq in Hv. subst y. split; [exact Hy|]. exists v. auto.
    + right. split; [|reflexivity]. intros Hin.
      assert (existsb (Z.eqb v) choices = true)
        by (apply existsb_exists; exists v; split; [exact Hin | apply Z.eqb_refl]).
      congruence.
  - left. split; [exact I|]. exists default. auto.
Qed.

(** X6. The configuration is built exactly when each of the two options is
    left out or is one of its choices; otherwise the program ends with
    SystemExit.  The table lookup never fails: every size that gets past the
    parser, the default included, is a key of [hsize_dict]. *)
Theorem configure_outcome :
  forall sz sm : option Z,
    (returns (SubmitRb.configure sz sm)
     <-> admissible SubmitRb.size_choices sz
         /\ admissible SubmitRb.samples_choices sm)
    /\ (forall e, SubmitRb.configure sz sm = Raise e -> e = SystemExit)
    /\ (forall c, SubmitRb.configure sz sm = Ok c ->
          In (SubmitRb.size c, SubmitRb.hsize c) SubmitRb.hsize_dict
          /\ SubmitRb.hsize c <> 1024%Z).
Proof.
  intros sz sm. unfold SubmitRb.configure.
  destruct (parse_choice_cases 1 SubmitRb.size_choices sz)
    as [(Hsz & s & -> & Hs)|(Hsz & ->)];
    [|split; [split; [intros [c Hc]; discriminate | tauto]
             | split; [intros e H; now inversion H | discriminate]]].
  destruct (parse_choice_cases 8000 SubmitRb.samples_choices sm)
    as [(Hsm & m & -> & Hm)|(Hsm & ->)];
    [|split; [split; [intros [c Hc]; discriminate | tauto]
             | split; [intros e H; now inversion H | discriminate]]].
  rewrite !bind_ok.
  assert (Hh : exists h, getitem Z.eqb SubmitRb.hsize_dict s = Ok h
                         /\ In (s, h) SubmitRb.hsize_dict /\ h <> 1024%Z).
  { simpl in Hs.
    destruct Hs as [->|[<-|[<-|[<-|[<-|[<-|[]]]]]]];
      (eexists; split; [reflexivity|]; split; [simpl; tauto | discriminate]). }
  destruct Hh as (h & -> & Hin & Hne). rewrite bind_ok.
  split; [split; [tauto | intros _; eexists; reflexivity]|].
  split; [discriminate|].
  intros c Hc. inversion Hc. simpl. now split.
Qed.

(** ** submit_rb.py: what the sampling draws *)



Lemma concat_singletons (l : list nat) : List.concat (map (fun k => [k]) l) = l.
Proof. induction l as [|k l IH]; simpl; [reflexivity | now rewrite IH]. Qed.

Section UniformEntries.
Variable U : nat -> Q.
Variables low high : Q.



Lemma uniform_row_form (rows cols s : nat) (row : list SubmitRb.entry) :
  In row (fst (SubmitRb.uniform U low high rows cols s)) ->
  exists s', row = map (SubmitRb.scaled U low high) (seq s' cols).
Proof.
  revert s. induction rows as [|r IH]; intros s; simpl; [contradiction|].
  specialize (IH (s + cols)).
  destruct (SubmitRb.uniform U low high r cols (s + cols)) as [m s'].
  simpl in *. intros [<-|H]; [now exists s | now apply IH].
Qed.
End UniformEntries.

(** The three datasets in terms of the six arrays. *)
Lemma sample_arrays (U : nat -> Q) (tr t v nb s0 : nat) :
  let p1 := fst (SubmitRb.uniform U SubmitRb.p_low SubmitRb.p_high tr 1 s0) in
  let p2 := fst (SubmitRb.uniform U SubmitRb.p_low SubmitRb.p_high t 1 (s0 + tr)) in
  let p3 := fst (SubmitRb.uniform U SubmitRb.p_low SubmitRb.p_high v 1 (s0 + tr + t)) in
  let a1 := fst (SubmitRb.uniform U SubmitRb.a_low SubmitRb.a_high tr nb
                   (s0 + tr + t + v)) in
  let a2 := fst (SubmitRb.uniform U SubmitRb.a_low SubmitRb.a_high t nb
                   (s0 + tr + t + v + tr * nb)) in
  let a3 := fst (SubmitRb.uniform U SubmitRb.a_low SubmitRb.a_high v nb
                   (s0 + tr + t + v + tr * nb + t * nb)) in
  SubmitRb.sample U tr t v nb s0
  = (SubmitRb.mkDatasets (combine p1 a1) (combine p2 a2) (combine p3 a3),
     s0 + tr + t + v + tr * nb + t * nb + v * nb).
Proof.
  intros p1 p2 p3 a1 a2 a3. subst p1 p2 p3 a1 a2 a3.
  unfold SubmitRb.sample.
  repeat match goal with
  | |- context [let '(_, _) := SubmitRb.uniform U ?l ?h ?r ?c ?s in _] =>
      let H := fresh "S" in
      pose proof (uniform_state U l h r c s) as H;
      destruct (SubmitRb.uniform U l h r c s) as [? ?];
      simpl in H; subst; rewrite ?Nat.mul_1_r
  end.
  reflexivity.
Qed.



(** X8. With a generator whose numbers lie between 0 and 1, every sampled
    datapoint has one p entry, between 1 and 8, and [num_blocks] a entries,
    between 1/2 and 9/2. *)
Theorem sample_values_in_range :
  forall (U : nat -> Q) (tr t v nb s0 : nat),
    (forall k, (0 <= U k)%Q /\ (U k <= 1)%Q) ->
    forall d, In d (datapoints (fst (SubmitRb.sample U tr t v nb s0))) ->
      List.length (fst d) = 1
      /\ List.length (snd d) = nb
      /\ Forall (fun e => (1 <= SubmitRb.val e)%Q /\ (SubmitRb.val e <= 8)%Q) (fst d)
      /\ Forall (fun e => ((1 # 2) <= SubmitRb.val e)%Q
                          /\ (SubmitRb.val e <= (9 # 2))%Q) (snd d).
Proof.
  intros U tr t v nb s0 HU [prow arow] Hd.
  rewrite sample_arrays in Hd. unfold datapoints in Hd. simpl in Hd.
  assert (Hrows : exists rp ra sp sa,
             In prow (fst (SubmitRb.uniform U SubmitRb.p_low SubmitRb.p_high rp 1 sp))
             /\ In arow (fst (SubmitRb.uniform U SubmitRb.a_low SubmitRb.a_high ra nb sa))).
  { rewrite !in_app_iff in Hd.
    destruct Hd as [H|[H|H]];
      pose proof (in_combine_l _ _ _ _ H); pose proof (in_combine_r _ _ _ _ H);
      do 4 eexists; split; eassumption. }
  destruct Hrows as (rp & ra & sp & sa & Hp & Ha).
  apply uniform_row_form in Hp. apply uniform_row_form in Ha.
  destruct Hp as (s1 & ->). destruct Ha as (s2 & ->). simpl fst. simpl snd.
  split; [reflexivity|].
  split; [now rewrite length_map, length_seq|].
  split.
  - repeat constructor; simpl; unfold SubmitRb.p_low, SubmitRb.p_high;
      destruct (HU s1); lra.
  - apply Forall_forall. intros e He. apply in_map_iff in He.
    destruct He as (k & <- & _). simpl.
    unfold SubmitRb.a_low, SubmitRb.a_high. destruct (HU k). split; lra.
Qed.

Lemma sample_values_in_range_witness :
  (forall k : nat, (0 <= (1 # 2))%Q /\ ((1 # 2) <= 1)%Q)
  /\ forall d, In d (datapoints (fst (SubmitRb.sample (fun _ => (1 # 2)%Q) 2 1 1 3 0))) ->
       List.length (fst d) = 1 /\ List.length (snd d) = 3.
Proof.
  assert (H : forall k : nat, (0 <= (1 # 2))%Q /\ ((1 # 2) <= 1)%Q)
    by (intros _; split; unfold Qle; simpl; lia).
  split; [exact H|].
  intros d Hd.
  destruct (sample_values_in_range (fun _ => (1 # 2)%Q) 2 1 1 3 0 H d Hd)
    as (H1 & H2 & _).
  now split.
Defined.

(** ** What a pass over a loader delivers *)

Lemma reversing_permuting : permuting reversing.
Proof. intros n s. simpl. apply Permutation_sym, Permutation_rev. Qed.

Lemma sampler_order {gen A : Type} (rp : nat -> gen -> list nat * gen)
    (d : DataLoader A) (s : gen) :
  permuting rp ->
  Permutation (fst (sampler rp d s)) (seq 0 (List.length (dataset d))).
Proof.
  intros Hrp. unfold sampler. destruct (shuffle d); [apply Hrp | reflexivity].
Qed.

(** X9. Whatever its batch size and whether it shuffles or not, a pass over
    a loader delivers every row of its dataset exactly once, provided the
    generator's draws are orders of the row indices: the rows of the pass
    are a rearrangement of the dataset. *)
Theorem pass_delivers_each_row_once :
  forall (gen A : Type) (rp : nat -> gen -> list nat * gen)
         (d : DataLoader A) (s : gen),
    permuting rp ->
    Permutation (row_order rp d s) (dataset d)
    /\ List.length (row_order rp d s) = List.length (dataset d).
Proof.
  intros gen A rp d s Hrp.
  assert (H : Permutation (row_order rp d s) (dataset d)).
  { rewrite row_order_sampler.
    rewrite <- (fetch_all (dataset d)) at 2.
    unfold fetch. apply Permutation_flat_map. now apply sampler_order. }
  split; [exact H | now apply Permutation_length].
Qed.

Lemma pass_delivers_each_row_once_witness :
  permuting reversing
  /\ Permutation (row_order reversing (RosenbrockMain.loader_train ["r0"; "r1"; "r2"]) tt)
                 ["r0"; "r1"; "r2"].
Proof.
  split; [exact reversing_permuting|].
  exact (proj1 (pass_delivers_each_row_once unit string reversing
                  (RosenbrockMain.loader_train ["r0"; "r1"; "r2"]) tt
                  reversing_permuting)).
Defined.

Lemma batch_sizes_full (b m : nat) :
  1 <= b -> batch_sizes (b + m) b = b :: batch_sizes m b.
Proof.
  intros Hb. unfold batch_sizes.
  replace (b + m) with (m + 1 * b) by lia.
  rewrite Nat.div_add, Nat.Div0.mod_add by lia.
  rewrite Nat.add_1_r. reflexivity.
Qed.

Lemma batch_sizes_small (m b : nat) :
  m < b -> batch_sizes m b = if Nat.eqb m 0 then [] else [m].
Proof.
  intros H. unfold batch_sizes.
  rewrite (Nat.div_small m b H), (Nat.mod_small m b H). reflexivity.
Qed.

Lemma batch_sampler_sizes (b : nat) (idxs batch : list nat) :
  1 <= b -> List.length batch < b ->
  map (@List.length nat) (batch_sampler b batch idxs)
  = batch_sizes (List.length batch + List.length idxs) b.
Proof.
  intros Hb. revert batch. induction idxs as [|i rest IH]; intros batch Hlt; simpl.
  - rewrite Nat.add_0_r, batch_sizes_small by exact Hlt.
    destruct batch; reflexivity.
  - rewrite length_app. simpl List.length.
    destruct (Nat.eqb_spec (List.length batch + 1) b) as [Heq|Hne]; simpl.
    + rewrite length_app. simpl List.length. rewrite (IH []) by (simpl; lia).
      simpl List.length.
      replace (List.length batch + S (List.length rest))
        with (b + List.length rest) by lia.
      rewrite batch_sizes_full by exact Hb. now rewrite Heq.
    + rewrite IH by (rewrite length_app; simpl; lia).
      rewrite length_app. simpl List.length. f_equal. lia.
Qed.

Lemma fetch_length {A : Type} (data : list A) (idxs : list nat) :
  Forall (fun i => i < List.length data) idxs ->
  List.length (fetch data idxs) = List.length idxs.
Proof.
  unfold fetch. induction 1 as [|i idxs Hi _ IH]; simpl; [reflexivity|].
  rewrite length_app, IH.
  destruct (nth_error data i) eqn:He; [reflexivity|].
  apply nth_error_None in He. lia.
Qed.

(** X10. With a batch size b >= 1 and a generator whose draws are orders of
    the row indices, a pass over a loader of n rows yields n / b batches of
    b rows, followed by one batch of the n mod b remaining rows when there
    are any: no row is dropped, no batch is padded or empty. *)
Theorem pass_batch_sizes :
  forall (gen A : Type) (rp : nat -> gen -> list nat * gen)
         (d : DataLoader A) (s : gen),
    permuting rp -> 1 <= Torch.batch_size d ->
    map (@List.length A) (fst (epoch rp d s))
    = batch_sizes (List.length (dataset d)) (Torch.batch_size d).
Proof.
  intros gen A rp d s Hrp Hb. unfold epoch.
  pose proof (sampler_order rp d s Hrp) as Hperm.
  destruct (sampler rp d s) as [order s']. simpl in *.
  rewrite map_map.
  replace (List.length (dataset d)) with (List.length order)
    by (rewrite (Permutation_length Hperm); apply length_seq).
  pose proof (batch_sampler_sizes (Torch.batch_size d) order [] Hb) as Hsz.
  simpl in Hsz. rewrite <- Hsz by lia.
  apply map_ext_in. intros batch Hin. apply fetch_length.
  apply Forall_forall. intros i Hi.
  assert (Hio : In i order).
  { rewrite <- (app_nil_l order),
      <- (concat_batch_sampler (Torch.batch_size d) order []).
    apply in_concat. now exists batch. }
  apply (Permutation_in _ Hperm) in Hio. apply in_seq in Hio. lia.
Qed.

Lemma pass_batch_sizes_witness :
  permuting reversing
  /\ 1 <= 32
  /\ map (@List.length nat)
         (fst (epoch reversing (RosenbrockMain.loader_test (seq 0 105)) tt))
     = [32; 32; 32; 9].
Proof.
  split; [exact reversing_permuting|]. split; [lia|].
  exact (pass_batch_sizes unit nat reversing
           (RosenbrockMain.loader_test (seq 0 105)) tt
           reversing_permuting ltac:(simpl; lia)).
Defined.

(** ** Rows of the splits, by the numbers they hold *)








